(** * Resilience wrapper and analytics queue of the CV-analysis agents

    A shallow embedding of
    - [CircuitBreaker], [LLMClient] and [AgentDegradationStrategy]
      (Python, agents/README.md, sections "LLM Failure Recovery",
      "Circuit Breaker Pattern" and "Graceful Degradation");
    - [AnalyticsService] (JavaScript, frontend services/analytics);
    - the response-processing and validation steps of the parsers, whose
      code is only named in the READMEs ([_clean_json_response],
      [_attempt_json_repair], [_calculate_completeness_score]).

    Part I holds the definitions, Part II the theorems. *)

From Stdlib Require Import ZArith QArith Lia Ascii.
From stdpp Require Import base option list strings gmap sorting.

Set Warnings "-register-all".

Local Open Scope Z_scope.

(* ===================================================================== *)
(** * Part I: definitions                                                 *)
(* ===================================================================== *)

(** ** Python exceptions and the outcome of a call *)

(** The exception classes that appear in [call_with_retry].  [TimeoutError]
    and [ConnectionError] are the two classes named in the [except] clause
    (each stands for its subclasses too); [TypeError] is what
    [time.time() - None] raises; [OtherError] stands for every class outside
    those two that [make_llm_call] may raise (authentication, bad request,
    ...), carried by its class name and message.  The repository does not
    define [CircuitBreakerOpenException] and [LLMProcessingException]; they
    are taken, as their names say, as exception classes of their own and
    not as kinds of timeout or connection error. *)
Inductive Exception : Type :=
  | TimeoutError
  | ConnectionError
  | CircuitBreakerOpenException (msg : string)
  | LLMProcessingException (msg : string)
  | TypeError
  | OtherError (cls msg : string).

(** [except (TimeoutError, ConnectionError) as e]. *)
Definition caught_by_retry (e : Exception) : bool :=
  match e with
  | TimeoutError | ConnectionError => true
  | _ => false
  end.

(** A Python call either returns a value or raises. *)
Inductive Outcome (A : Type) : Type :=
  | Returned (a : A)
  | Raised (e : Exception).
Arguments Returned {A} a.
Arguments Raised {A} e.

(** ** The circuit breaker *)

Module CircuitBreaker.

(** [self.state] only ever holds one of the three string literals. *)
Inductive CircuitState : Type := CLOSED | OPEN | HALF_OPEN.

Record t : Type := mk {
  failure_threshold : Z;
  recovery_timeout : Z;
  failure_count : Z;
  last_failure_time : option Z;  (* [None] until the first failure *)
  state : CircuitState
}.

(** [__init__(self, failure_threshold=5, recovery_timeout=60)] *)
Definition init (failure_threshold recovery_timeout : Z) : t :=
  mk failure_threshold recovery_timeout 0 None CLOSED.

Definition init_default : t := init 5 60.

(** [is_open], at clock reading [now] (the value of [time.time()], which
    is read only in the OPEN branch; clock readings and durations are whole
    numbers of clock ticks, seconds in the examples).  Subtracting [None]
    raises. *)
Definition is_open (now : Z) (cb : t) : Outcome bool * t :=
  match state cb with
  | OPEN =>
      match last_failure_time cb with
      | None => (Raised TypeError, cb)
      | Some last =>
          if now - last >? recovery_timeout cb
          then (Returned false,
                mk (failure_threshold cb) (recovery_timeout cb)
                   (failure_count cb) (last_failure_time cb) HALF_OPEN)
          else (Returned true, cb)
      end
  | _ => (Returned false, cb)
  end.

Definition record_success (cb : t) : t :=
  mk (failure_threshold cb) (recovery_timeout cb) 0
     (last_failure_time cb) CLOSED.

Definition record_failure (now : Z) (cb : t) : t :=
  let failure_count' := failure_count cb + 1 in
  mk (failure_threshold cb) (recovery_timeout cb) failure_count' (Some now)
     (if failure_count' >=? failure_threshold cb then OPEN else state cb).

(** The three methods are the only code that writes the breaker. *)
Inductive op : Type :=
  | IsOpen (now : Z)
  | RecordSuccess
  | RecordFailure (now : Z).

Definition run_op (o : op) (cb : t) : t :=
  match o with
  | IsOpen now => snd (is_open now cb)
  | RecordSuccess => record_success cb
  | RecordFailure now => record_failure now cb
  end.

(** Breakers that some sequence of method calls produces from a freshly
    constructed one. *)
Inductive reachable : t -> Prop :=
  | reach_init threshold timeout : reachable (init threshold timeout)
  | reach_step o cb : reachable cb -> reachable (run_op o cb).

(** While OPEN or HALF_OPEN the counter has reached the threshold. *)
Definition tripped_means_counted (cb : t) : Prop :=
  state cb <> CLOSED -> failure_threshold cb <= failure_count cb.

Definition run_ops (ops : list op) (cb : t) : t :=
  fold_left (fun acc o => run_op o acc) ops cb.

Definition is_failure (o : op) : bool :=
  match o with RecordFailure _ => true | _ => false end.

(** The number of failures recorded by a sequence of method calls. *)
Definition failures (ops : list op) : nat :=
  length (filter (fun o => is_failure o = true) ops).

(** Failures are consecutive when no success is recorded between them. *)
Definition consecutive (ops : list op) : Prop :=
  Forall (fun o => o <> RecordSuccess) ops.

(** [n] calls of [record_failure] in a row, at the given clock readings. *)
Definition record_failures (times : list Z) (cb : t) : t :=
  fold_left (fun acc now => record_failure now acc) times cb.

End CircuitBreaker.

(** ** The world around the client *)

(** Values of a model-configuration dict.  Floats such as the temperature
    are only passed through, so they are carried by their literal. *)
Inductive PyVal : Type :=
  | PNone
  | PBool (b : bool)
  | PStr (s : string)
  | PInt (n : Z)
  | PFloat (literal : string)
  | PDict (items : list (string * PyVal)).


Definition Config : Type := gmap string PyVal.

(** What one [make_llm_call] does: the text it returns or the exception it
    raises, and the seconds it takes. *)
Record NetReply : Type := mkReply {
  reply : Outcome string;
  latency : Z
}.

(** The external service: the reply to the [i]-th network call of a run
    ([i] counts from 0), as a function of the prompt and configuration. *)
Definition Network : Type := nat -> string -> Config -> NetReply.

(** What a run does that an observer can see. *)
Inductive Event : Type :=
  | NetCall (prompt : string) (config : Config)
  | Sleep (seconds : Z).

Definition is_net_call (ev : Event) : bool :=
  match ev with NetCall _ _ => true | Sleep _ => false end.

Definition net_calls (trace : list Event) : nat :=
  length (filter (fun ev => is_net_call ev = true) trace).

Definition sleeps (trace : list Event) : list Z :=
  omap (fun ev => match ev with Sleep s => Some s | _ => None end) trace.

(** Mutable state of a run: the clock, the events so far (oldest first) and
    the client's breaker. *)
Record St : Type := mkSt {
  clock : Z;
  trace : list Event;
  breaker : CircuitBreaker.t
}.

(** State-and-exception monad: a raised exception keeps the mutations made
    before it. *)
Definition M (A : Type) : Type := St -> Outcome A * St.

#[global] Instance M_ret : MRet M := fun A a st => (Returned a, st).
#[global] Instance M_bind : MBind M := fun A B f m st =>
  match m st with
  | (Returned a, st') => f a st'
  | (Raised e, st') => (Raised e, st')
  end.

Definition raise {A : Type} (e : Exception) : M A := fun st => (Raised e, st).

(** [try: body except (TimeoutError, ConnectionError): handler]; any other
    exception passes through. *)
Definition try_except {A : Type} (body : M A) (handler : Exception -> M A) : M A :=
  fun st =>
    match body st with
    | (Returned a, st') => (Returned a, st')
    | (Raised e, st') =>
        if caught_by_retry e then handler e st' else (Raised e, st')
    end.

Module LLMClient.

Import CircuitBreaker.

(** The immutable fields of the client; its breaker lives in [St]. *)
Record t : Type := mk {
  retry_attempts : Z;
  timeout : Z
}.

(** [__init__(self, retry_attempts=3, timeout=60)] *)
Definition init_default : t := mk 3 60.

Definition initial_state (now : Z) : St := mkSt now [] CircuitBreaker.init_default.

(** The events of [k] failed primary attempts in a row, the first with
    loop index [attempt]: each is a network call followed by the backoff
    sleep of [2 ** attempt] seconds. *)
Fixpoint failed_rounds (prompt : string) (config : Config) (attempt : Z) (k : nat)
    : list Event :=
  match k with
  | O => []
  | S k' =>
      NetCall prompt config :: Sleep (2 ^ attempt)
        :: failed_rounds prompt config (attempt + 1) k'
  end.

Section WithNetwork.

Variable net : Network.

(** [await self.make_llm_call(prompt, config)]: one network call.  The
    repository does not show its body; it is taken to do nothing but talk
    to the service, whose answer [net] gives. *)
Definition make_llm_call (prompt : string) (config : Config) : M string :=
  fun st =>
    let r := net (net_calls (trace st)) prompt config in
    (reply r,
     mkSt (clock st + latency r) (trace st ++ [NetCall prompt config]) (breaker st)).

(** [await asyncio.sleep(seconds)] *)
Definition sleep (seconds : Z) : M unit :=
  fun st => (Returned (), mkSt (clock st + seconds) (trace st ++ [Sleep seconds]) (breaker st)).

Definition breaker_is_open : M bool :=
  fun st =>
    let '(r, cb) := is_open (clock st) (breaker st) in
    (r, mkSt (clock st) (trace st) cb).

Definition breaker_record_success : M unit :=
  fun st => (Returned (), mkSt (clock st) (trace st) (record_success (breaker st))).

Definition breaker_record_failure : M unit :=
  fun st => (Returned (), mkSt (clock st) (trace st) (record_failure (clock st) (breaker st))).

(** [config.copy()] with ["model"] set to [config.get("fallback_model")]. *)
Definition fallback_config (config : Config) : Config :=
  <["model" := default PNone (config !! "fallback_model")]> config.

Definition try_fallback_model (prompt : string) (config : Config) : M string :=
  make_llm_call prompt (fallback_config config).

(** One pass through the body of the [for] loop.  [Some r] is
    [return r]; [None] is falling off the end of the body, on to the
    next iteration. *)
Definition attempt_body (self : t) (prompt : string) (config : Config)
    (attempt : Z) : M (option string) :=
  try_except
    (is_open ← breaker_is_open;
     if is_open : bool
     then raise (CircuitBreakerOpenException "LLM service unavailable")
     else
       response ← make_llm_call prompt config;
       _ ← breaker_record_success;
       mret (Some response))
    (fun _ =>
       _ ← breaker_record_failure;
       if attempt =? retry_attempts self - 1
       then response ← try_fallback_model prompt config; mret (Some response)
       else _ ← sleep (2 ^ attempt); mret None).

(** [for attempt in range(...)] from [attempt] on, with [remaining]
    iterations left, followed by the [raise] after the loop. *)
Fixpoint retry_loop (self : t) (prompt : string) (config : Config)
    (remaining : nat) (attempt : Z) : M string :=
  match remaining with
  | O => raise (LLMProcessingException "All retry attempts failed")
  | S remaining' =>
      r ← attempt_body self prompt config attempt;
      match r with
      | Some response => mret response
      | None => retry_loop self prompt config remaining' (attempt + 1)
      end
  end.

Definition call_with_retry (self : t) (prompt : string) (config : Config) : M string :=
  retry_loop self prompt config (Z.to_nat (retry_attempts self)) 0.

(** The ways one pass through the loop body can go, read off the
    source: what it yields and the state it leaves, from state [st]. *)
Inductive attempt_result (self : t) (prompt : string) (config : Config)
    (attempt : Z) (st : St) : Outcome (option string) * St -> Prop :=
  | attempt_blocked :
      is_open (clock st) (breaker st) = (Returned true, breaker st) ->
      attempt_result self prompt config attempt st
        (Raised (CircuitBreakerOpenException "LLM service unavailable"), st)
  | attempt_type_error :
      is_open (clock st) (breaker st) = (Raised TypeError, breaker st) ->
      attempt_result self prompt config attempt st (Raised TypeError, st)
  | attempt_success cb text secs :
      is_open (clock st) (breaker st) = (Returned false, cb) ->
      net (net_calls (trace st)) prompt config = mkReply (Returned text) secs ->
      attempt_result self prompt config attempt st
        (Returned (Some text),
         mkSt (clock st + secs) (trace st ++ [NetCall prompt config])
              (record_success cb))
  | attempt_fatal cb e secs :
      is_open (clock st) (breaker st) = (Returned false, cb) ->
      net (net_calls (trace st)) prompt config = mkReply (Raised e) secs ->
      caught_by_retry e = false ->
      attempt_result self prompt config attempt st
        (Raised e,
         mkSt (clock st + secs) (trace st ++ [NetCall prompt config]) cb)
  | attempt_retry cb e secs :
      is_open (clock st) (breaker st) = (Returned false, cb) ->
      net (net_calls (trace st)) prompt config = mkReply (Raised e) secs ->
      caught_by_retry e = true ->
      attempt <> retry_attempts self - 1 ->
      attempt_result self prompt config attempt st
        (Returned None,
         mkSt (clock st + secs + 2 ^ attempt)
              (trace st ++ [NetCall prompt config; Sleep (2 ^ attempt)])
              (record_failure (clock st + secs) cb))
  | attempt_fallback cb e secs r :
      is_open (clock st) (breaker st) = (Returned false, cb) ->
      net (net_calls (trace st)) prompt config = mkReply (Raised e) secs ->
      caught_by_retry e = true ->
      attempt = retry_attempts self - 1 ->
      net (S (net_calls (trace st))) prompt (fallback_config config) = r ->
      attempt_result self prompt config attempt st
        (match reply r with
         | Returned text => Returned (Some text)
         | Raised e' => Raised e'
         end,
         mkSt (clock st + secs + latency r)
              (trace st ++ [NetCall prompt config;
                            NetCall prompt (fallback_config config)])
              (record_failure (clock st + secs) cb)).

(** The course of the loop from pass [attempt] on, with [remaining] passes
    left, told by the replies of the network: [k] primary calls that failed
    with a caught error, each counted by the breaker and followed by its
    backoff sleep, and then one of three endings:
    - no further call, and an exception;
    - one more primary call, which succeeds and resets the counter, or
      fails with an error that is not caught;
    - as the last pass, a primary call that fails with a caught error and
      is counted, followed by the fallback-model call, whose outcome is
      the outcome of the run. *)
Definition run_course (self : t) (prompt : string) (config : Config)
    (attempt : Z) (remaining : nat) (st : St) (run : Outcome string * St) : Prop :=
  let calls := net_calls (trace st) in
  let count := failure_count (breaker st) in
  exists (k : nat) (tail : list Event),
    trace (snd run) = trace st ++ failed_rounds prompt config attempt k ++ tail
    /\ (k <= pred remaining)%nat
    /\ (forall i, (i < k)%nat ->
          exists e secs,
            net (calls + i)%nat prompt config = mkReply (Raised e) secs
            /\ caught_by_retry e = true)
    /\ (tail = []
           /\ (exists e, fst run = Raised e)
           /\ failure_count (breaker (snd run)) = count + Z.of_nat k
        \/ tail = [NetCall prompt config]
           /\ (k < remaining)%nat
           /\ fst run = reply (net (calls + k)%nat prompt config)
           /\ (forall text, fst run = Returned text ->
                 failure_count (breaker (snd run)) = 0)
           /\ (forall e, fst run = Raised e ->
                 caught_by_retry e = false
                 /\ failure_count (breaker (snd run)) = count + Z.of_nat k)
        \/ tail = [NetCall prompt config; NetCall prompt (fallback_config config)]
           /\ remaining = S k
           /\ (exists e secs,
                 net (calls + k)%nat prompt config = mkReply (Raised e) secs
                 /\ caught_by_retry e = true)
           /\ fst run
              = reply (net (calls + k + 1)%nat prompt (fallback_config config))
           /\ failure_count (breaker (snd run)) = count + Z.of_nat k + 1).

End WithNetwork.

End LLMClient.

(** ** Graceful degradation *)

Module AgentDegradationStrategy.

Section WithExtractor.

(** [self.extract_plain_text], whose body the repository does not show. *)
Variable extract_plain_text : list Byte.byte -> string.


End WithExtractor.

End AgentDegradationStrategy.

(** ** The frontend analytics queue *)

Module AnalyticsService.

(** Values stored in an event's [metadata] object. *)
Inductive JsVal : Type :=
  | JNull
  | JStr (s : string)
  | JNum (n : Z)
  | JObj (props : list (string * JsVal)).

(** What the browser reports when an event is built. *)
Record Browser : Type := mkBrowser {
  userAgent : string;
  innerWidth : Z;
  innerHeight : Z;
  href : string;
  title : string;
  pathname : string;
  referrer : string;
  isoTime : string
}.

Record EventData : Type := mkEvent {
  event_type : string;
  event_action : string;
  event_label : option string;
  element_id : option string;
  metadata : gmap string JsVal;
  page_url : string;
  page_title : string;
  timestamp : string
}.

(** The service object.  [batches] is not a field of the class: it keeps
    the successive values of the local [eventsToSend], the batches handed
    to the delivery block, oldest first. *)
Record t : Type := mk {
  sessionId : string;
  userId : option string;
  eventQueue : list EventData;
  isOnline : bool;
  batches : list (list EventData)
}.

(** The object literal built at the top of [trackEvent]: the caller's
    metadata spread first, then the three fixed keys. *)
Definition eventData (self : t) (env : Browser) (eventType eventAction : string)
    (eventLabel elementId : option string) (meta : gmap string JsVal) : EventData :=
  mkEvent eventType eventAction eventLabel elementId
    (<["session_id" := JStr (sessionId self)]>
       (<["viewport" := JObj [("width", JNum (innerWidth env));
                              ("height", JNum (innerHeight env))]]>
          (<["user_agent" := JStr (userAgent env)]> meta)))
    (href env) (title env) (isoTime env).

(** [flushEventQueue].  The function has no [await], so a call runs to its
    end before the caller goes on.  [delivery_throws] says whether the body
    of the [try] throws; the [catch] only logs a warning. *)
Definition flushEventQueue (delivery_throws : bool) (self : t) : t :=
  if negb (isOnline self) || bool_decide (length (eventQueue self) = 0%nat)
  then self
  else
    let eventsToSend := eventQueue self in
    mk (sessionId self) (userId self) [] (isOnline self)
       (batches self ++ [eventsToSend]).

Definition push (ev : EventData) (self : t) : t :=
  mk (sessionId self) (userId self) (eventQueue self ++ [ev]) (isOnline self)
     (batches self).

(** Whether [trackEvent] goes on to call [flushEventQueue], tested after
    the push. *)
Definition queue_full (self : t) : bool :=
  isOnline self && bool_decide (5 <= length (eventQueue self))%nat.

Definition trackEvent (delivery_throws : bool) (env : Browser)
    (eventType eventAction : string) (eventLabel elementId : option string)
    (meta : gmap string JsVal) (self : t) : t :=
  let self' := push (eventData self env eventType eventAction eventLabel elementId meta) self in
  if queue_full self' then flushEventQueue delivery_throws self' else self'.

(** [trackPageView(customPageInfo = null)].  [customPageInfo] is [None]
    for a call with no argument or a falsy one, which takes the current
    page info, and otherwise [Some] of the [page_title] of the argument:
    [None] when the argument has none, as the path strings the pages pass,
    and then [eventLabel] is undefined and takes its default, null. *)
Definition trackPageView (delivery_throws : bool) (env : Browser)
    (customPageInfo : option (option string)) (self : t) : t :=
  let page_title :=
    match customPageInfo with
    | Some page_title => page_title
    | None => Some (title env)
    end in
  trackEvent delivery_throws env "navigation" "page_view" page_title None
    (<["referrer" := JStr (referrer env)]> {["page_path" := JStr (pathname env)]})
    self.

(** The constructor, ending with the page view it tracks. *)
Definition constructor (sessionId : string) (onLine : bool) (env : Browser) : t :=
  trackPageView false env None (mk sessionId None [] onLine []).

Definition setUserId (uid : string) (self : t) : t :=
  mk (sessionId self) (Some uid) (eventQueue self) (isOnline self) (batches self).

(** The [online] and [offline] listeners. *)
Definition on_online (delivery_throws : bool) (self : t) : t :=
  flushEventQueue delivery_throws
    (mk (sessionId self) (userId self) (eventQueue self) true (batches self)).

Definition on_offline (self : t) : t :=
  mk (sessionId self) (userId self) (eventQueue self) false (batches self).

(** Everything that can happen to a service object after construction:
    a tracking call, a flush (timer, page unload or direct), a
    connectivity change, a change of user. *)
Inductive action : Type :=
  | Track (delivery_throws : bool) (env : Browser) (eventType eventAction : string)
      (eventLabel elementId : option string) (meta : gmap string JsVal)
  | Flush (delivery_throws : bool)
  | Online (delivery_throws : bool)
  | Offline
  | SetUser (uid : string).

Definition step (a : action) (self : t) : t :=
  match a with
  | Track thr env ty act lbl el meta => trackEvent thr env ty act lbl el meta self
  | Flush thr => flushEventQueue thr self
  | Online thr => on_online thr self
  | Offline => on_offline self
  | SetUser uid => setUserId uid self
  end.

Definition run (actions : list action) (self : t) : t :=
  fold_left (fun s a => step a s) actions self.

(** The events a sequence of actions tracks, in order, starting from a
    service in state [self]. *)
Fixpoint tracked (actions : list action) (self : t) : list EventData :=
  match actions with
  | [] => []
  | a :: rest =>
      match a with
      | Track _ env ty act lbl el meta => [eventData self env ty act lbl el meta]
      | _ => []
      end ++ tracked rest (step a self)
  end.

End AnalyticsService.

(** ** Response processing (step 4 of the invoker) *)

Module ResponseProcessing.

Definition chars (s : string) : list ascii := String.list_ascii_of_string s.
Definition unchars (l : list ascii) : string := String.string_of_list_ascii l.

(** Whitespace in the sense of [str.strip()], on ASCII. *)
Definition is_ws (c : ascii) : bool :=
  let n := nat_of_ascii c in
  bool_decide (n = 32 \/ 9 <= n <= 13)%nat.

Fixpoint trim_left (l : list ascii) : list ascii :=
  match l with
  | c :: l' => if is_ws c then trim_left l' else l
  | [] => []
  end.

Definition trim_right (l : list ascii) : list ascii :=
  reverse (trim_left (reverse l)).

Definition trim (l : list ascii) : list ascii := trim_right (trim_left l).

Definition starts_with (p l : list ascii) : bool := bool_decide (p `prefix_of` l).
Definition ends_with (p l : list ascii) : bool := bool_decide (p `suffix_of` l).

Definition fence : list ascii := chars "```".
Definition lang_tag : list ascii := chars "json".
Definition newline : ascii := ascii_of_nat 10.

(** A text is fenced when it opens and closes with a fence marker (two
    markers, so at least six characters). *)
Definition fenced (l : list ascii) : bool :=
  starts_with fence l && ends_with fence l && bool_decide (6 <= length l)%nat.

(** Modelled from the spec: the body of [_clean_json_response], which the
    repository names but does not show.  "Strip wrapping code-fence
    markers": surrounding whitespace goes; when the text is fenced the two
    markers and a [json] language tag after the opening one go as well. *)
Definition strip_code_fences (l : list ascii) : list ascii :=
  let t := trim l in
  if fenced t then
    let inner := take (length t - 6) (drop 3 t) in
    let inner := if starts_with lang_tag inner then drop 4 inner else inner in
    trim inner
  else t.

(** A response wrapped in json fences: the opening marker with its tag,
    the text, the closing marker, with blank space [lead] and [trail]
    (line breaks, as a rule) around the text. *)
Definition wrap_in_fences (lead trail : list ascii) (j : string) : string :=
  unchars (fence ++ lang_tag ++ lead ++ chars j ++ trail ++ fence).

Definition blank (l : list ascii) : Prop := Forall (fun c => is_ws c = true) l.

(** Every JSON text opens, after optional whitespace, with the first
    character of a value: a brace, a bracket, a quote, a minus sign, a
    digit, or the first letter of [true], [false] or [null]. *)
Definition value_start (c : ascii) : bool :=
  let n := nat_of_ascii c in
  bool_decide (n = 123 \/ n = 91 \/ n = 34 \/ n = 45 \/ 48 <= n <= 57
               \/ n = 116 \/ n = 102 \/ n = 110)%nat.

Definition starts_like_json (l : list ascii) : bool :=
  match trim_left l with
  | c :: _ => value_start c
  | [] => false
  end.

Section WithParser.

(** The type of parsed JSON values and the strict parser ([json.loads],
    a library function); [None] is a parse error. *)
Variable Json : Type.
Variable json_loads : list ascii -> option Json.

(** The repair heuristics, tried in order; their bodies
    ([_attempt_json_repair]) are not shown by the repository. *)
Variable repairs : list (list ascii -> list ascii).

(** Modelled from the spec: the body of [_attempt_json_repair], which the
    repository names but does not show.  "A bounded set of repair
    heuristics": the first heuristic whose output parses decides. *)
Fixpoint attempt_json_repair (hs : list (list ascii -> list ascii))
    (l : list ascii) : option Json :=
  match hs with
  | [] => None
  | h :: hs' =>
      match json_loads (h l) with
      | Some v => Some v
      | None => attempt_json_repair hs' l
      end
  end.

(** Modelled from the spec: the response processing that joins
    [_clean_json_response], the strict parse and [_attempt_json_repair],
    whose code the repository does not show.  Step 4: "strip wrapping
    code-fence markers, attempt strict JSON parse; on failure attempt a
    bounded set of repair heuristics"; [None] is "treat as a failure for
    retry purposes". *)
Definition process_response (response : string) : option Json :=
  let cleaned := strip_code_fences (chars response) in
  match json_loads cleaned with
  | Some v => Some v
  | None => attempt_json_repair repairs cleaned
  end.

End WithParser.

End ResponseProcessing.

(** ** Validation against the required-field list (step 5 of the invoker) *)

Module Validation.

(** Field values of a ParseResult: "strings or lists of strings". *)
Inductive Value : Type :=
  | VStr (s : string)
  | VList (items : list string).

Inductive Kind : Type := KStr | KList.

Definition empty_default (k : Kind) : Value :=
  match k with
  | KStr => VStr ""
  | KList => VList []
  end.

Definition is_empty (v : Value) : bool :=
  match v with
  | VStr s => bool_decide (s = "")
  | VList items => bool_decide (items = [])
  end.

Record Validated : Type := mkValidated {
  fields : gmap string Value;
  parsing_notes : list string;
  completeness_score : Q
}.

Section WithSchema.

(** Whether a field of the target schema holds a string or a list. *)
Variable kind_of : string -> Kind.

(** Modelled from the spec: the pieces of the validator, whose code the
    repository does not show.  A field is missing when the response has no
    entry for it, and present otherwise. *)
Definition missing_fields (parsed : gmap string Value) (required : list string)
    : list string :=
  filter (fun f => parsed !! f = None) required.

Definition present_fields (parsed : gmap string Value) (required : list string)
    : list string :=
  filter (fun f => is_Some (parsed !! f)) required.

(** Modelled from the spec: the note "recorded in [parsing_notes]" for a
    missing field; the repository does not show its wording. *)
Definition missing_note (f : string) : string :=
  "Missing required field: " +:+ f.

(** Modelled from the spec: "missing fields are filled with empty
    defaults"; the code is not in the repository. *)
Definition fill_defaults (parsed : gmap string Value) (required : list string)
    : gmap string Value :=
  foldr (fun f acc => <[f := empty_default (kind_of f)]> acc) parsed
        (missing_fields parsed required).

(** Modelled from the spec: the body of [_calculate_completeness_score],
    which the repository names but does not show: "(fields present /
    fields expected)". *)
Definition completeness (parsed : gmap string Value) (required : list string) : Q :=
  (inject_Z (Z.of_nat (length (present_fields parsed required)))
   / inject_Z (Z.of_nat (length required)))%Q.

(** Modelled from the spec: the validator of step 5, which the repository
    names ([_calculate_completeness_score] and the structure validation
    around it) but does not show. *)
Definition validate (parsed : gmap string Value) (notes : list string)
    (required : list string) : Validated :=
  mkValidated (fill_defaults parsed required)
              (notes ++ (missing_note <$> missing_fields parsed required))
              (completeness parsed required).

End WithSchema.

End Validation.

(** ** Concrete runs used by the examples *)

Module Scenarios.

(** A call configuration for CV parsing with the models and limits of
    [MODEL_SELECTION["cv_parsing"]], under the keys [try_fallback_model]
    reads and writes. *)
Definition cv_config : Config :=
  <["model" := PStr "claude-3-5-sonnet-20241022"]>
    (<["fallback_model" := PStr "claude-3-haiku-20240307"]>
       (<["max_tokens" := PInt 4000]> {["temperature" := PFloat "0.1"]})).

(** The entry [MODEL_SELECTION["cv_parsing"]] itself, which has no
    ["fallback_model"] key. *)
Definition cv_parsing_entry : Config :=
  <["primary" := PStr "claude-3-5-sonnet-20241022"]>
    (<["fallback" := PStr "claude-3-haiku-20240307"]>
       (<["max_tokens" := PInt 4000]> {["temperature" := PFloat "0.1"]})).

Definition cv_prompt : string := "Extract the candidate profile as JSON.".

(** Total unavailability: every call times out after 60 seconds. *)
Definition net_down : Network :=
  fun _ _ _ => mkReply (Raised TimeoutError) 60.

(** Every call is refused at once. *)
Definition net_refused : Network :=
  fun _ _ _ => mkReply (Raised ConnectionError) 0.

(** A rejected API key: every call fails with an authentication error. *)
Definition net_bad_key : Network :=
  fun _ _ _ => mkReply (Raised (OtherError "AuthenticationError" "invalid x-api-key")) 1.

(** A healthy service. *)
Definition net_ok : Network :=
  fun _ _ _ => mkReply (Returned "{}") 2.

(** The default breaker after five failures, the last at time 100. *)
Definition tripped_breaker : CircuitBreaker.t :=
  CircuitBreaker.record_failures [96; 97; 98; 99; 100] CircuitBreaker.init_default.

(** Thirty seconds later, inside the 60 second cooldown. *)
Definition cooling_down : St := mkSt 130 [] tripped_breaker.

(** Two minutes later, past the cooldown. *)
Definition cooled_down : St := mkSt 220 [] tripped_breaker.

(** A browser on the home page, and a button click tracked there. *)
Definition home : AnalyticsService.Browser :=
  AnalyticsService.mkBrowser "Mozilla/5.0" 1280 720 "https://app.example/"
    "CV Analyzer" "/" "" "2025-01-01T00:00:00.000Z".

Definition click : AnalyticsService.action :=
  AnalyticsService.Track false home "click" "button_click" None
    (Some "cv-upload-button") ∅.

End Scenarios.

(** ** File upload validation *)

#[global] Instance byte_eq_dec : EqDecision Byte.byte := Byte.byte_eq_dec.

Module FileValidator.

Definition bytes_of (s : string) : list Byte.byte := String.list_byte_of_string s.

(** [bytes.lower()]: the ASCII capitals go to their small letters, every
    other byte stays. *)
Definition lower_byte (b : Byte.byte) : Byte.byte :=
  let n := Byte.to_N b in
  if (65 <=? n)%N && (n <=? 90)%N then default b (Byte.of_N (n + 32)) else b.

Definition lower (content : list Byte.byte) : list Byte.byte := lower_byte <$> content.

(** [content.startswith(sig)] *)
Definition startswith (content sig : list Byte.byte) : bool :=
  bool_decide (sig `prefix_of` content).

(** [pattern in content] on bytes: [pattern] occurs as a contiguous run. *)
Fixpoint contains (pattern content : list Byte.byte) : bool :=
  startswith content pattern
  || match content with
     | [] => false
     | _ :: rest => contains pattern rest
     end.

Definition ALLOWED_EXTENSIONS : list string := [".pdf"; ".docx"; ".doc"; ".txt"].

Definition MAX_FILE_SIZE : Z := 10 * 1024 * 1024.

Definition suspicious_patterns : list (list Byte.byte) :=
  [bytes_of "<script"; bytes_of "javascript:"; bytes_of "vbscript:";
   bytes_of "<?php"; bytes_of "exec("; bytes_of "eval("; bytes_of "ActiveX"].

Definition scan_for_malicious_content (content : list Byte.byte) : bool :=
  let content_lower := lower content in
  existsb (fun pattern => contains pattern content_lower) suspicious_patterns.

(** The dict [file_signatures], in the order it is written. *)
Definition file_signatures : list (string * list (list Byte.byte)) :=
  [(".pdf", [bytes_of "%PDF"]);
   (".docx", [[Byte.x50; Byte.x4b; Byte.x03; Byte.x04]]);
   (".doc", [[Byte.xd0; Byte.xcf; Byte.x11; Byte.xe0]]);
   (".txt", [])].

Definition signatures_of (file_ext : string) : option (list (list Byte.byte)) :=
  snd <$> List.find (fun kv => bool_decide (fst kv = file_ext)) file_signatures.

(** [file_ext in file_signatures and file_signatures[file_ext]]: the key is
    there and its list is not empty. *)
Definition verify_file_integrity (content : list Byte.byte) (file_ext : string) : bool :=
  match signatures_of file_ext with
  | Some (sig :: sigs) => existsb (startswith content) (sig :: sigs)
  | _ => true
  end.

(** The dict [validation_result]; [file_info] is created empty and never
    written. *)
Record ValidationResult : Type := mkResult {
  is_valid : bool;
  issues : list string;
  file_info : list (string * PyVal)
}.

(** The two statements of each failing check: [is_valid] goes to [False]
    and the message is appended to [issues]. *)
Definition reject (msg : string) (r : ValidationResult) : ValidationResult :=
  mkResult false (issues r ++ [msg]) (file_info r).

Section WithPathlib.

(** [Path(filename).suffix.lower()], a library computation. *)
Variable suffix_lower : string -> string.

Definition validate_file (file_content : list Byte.byte) (filename : string)
    : ValidationResult :=
  let validation_result := mkResult true [] [] in
  let file_ext := suffix_lower filename in
  let validation_result :=
    if bool_decide (file_ext ∈ ALLOWED_EXTENSIONS) then validation_result
    else reject ("Unsupported file type: " +:+ file_ext) validation_result in
  let validation_result :=
    if Z.of_nat (length file_content) >? MAX_FILE_SIZE
    then reject "File size exceeds 10MB limit" validation_result
    else validation_result in
  let validation_result :=
    if scan_for_malicious_content file_content
    then reject "Potentially malicious content detected" validation_result
    else validation_result in
  let validation_result :=
    if negb (verify_file_integrity file_content file_ext)
    then reject "File appears to be corrupted" validation_result
    else validation_result in
  validation_result.

End WithPathlib.

End FileValidator.

(** ** Token accounting *)

Module TokenManager.

Section WithFloat.

(** Costs are Python floats: a type with the constant [0.0] and the
    addition [+], about which nothing more is assumed. *)
Variable float : Type.
Variable float_zero : float.
Variable float_add : float -> float -> float.

(** The inner dict [{"tokens": ..., "cost": ...}]. *)
Record Usage : Type := mkUsage {
  tokens : Z;
  cost : float
}.

(** [len(text) // 4]; only the length of the text matters. *)
Definition estimate_tokens (text : list N) : Z := Z.of_nat (length text) / 4.

(** [self.compress_prompt], which the repository calls but does not show. *)
Variable compress_prompt : list N -> Z -> list N.

Definition optimize_prompt (prompt : list N) (max_tokens : Z) : list N :=
  if estimate_tokens prompt <=? max_tokens then prompt
  else compress_prompt prompt max_tokens.

(** [track_usage] on the dict [self.token_budget]. *)
Definition track_usage (agent_id : string) (tokens_used : Z) (cost_ : float)
    (token_budget : gmap string Usage) : gmap string Usage :=
  let token_budget :=
    match token_budget !! agent_id with
    | None => <[agent_id := mkUsage 0 float_zero]> token_budget
    | Some _ => token_budget
    end in
  let token_budget :=
    alter (fun u => mkUsage (tokens u + tokens_used) (cost u)) agent_id token_budget in
  alter (fun u => mkUsage (tokens u) (float_add (cost u) cost_)) agent_id token_budget.

(** A sequence of [track_usage] calls, oldest first. *)
Definition track_all (calls : list (string * Z * float))
    (token_budget : gmap string Usage) : gmap string Usage :=
  foldl (fun budget call => track_usage call.1.1 call.1.2 call.2 budget)
        token_budget calls.

(** The calls of one agent, in order. *)
Definition calls_of (agent_id : string) (calls : list (string * Z * float))
    : list (string * Z * float) :=
  filter (fun call => call.1.1 = agent_id) calls.

(** The record an agent's next call adds to: its own, or a fresh one. *)
Definition opening (agent_id : string) (token_budget : gmap string Usage) : Usage :=
  default (mkUsage 0 float_zero) (token_budget !! agent_id).

(** The tokens of a list of calls, added up, and their costs, added to
    [start] one after the other. *)
Definition tokens_total (calls : list (string * Z * float)) : Z :=
  foldr (fun call total => call.1.2 + total) 0 calls.

Definition cost_total (start : float) (calls : list (string * Z * float)) : float :=
  foldl (fun total call => float_add total call.2) start calls.

End WithFloat.

End TokenManager.

(** ** Input sanitization *)

Module InputSanitizer.

(** A Python [str] is a sequence of code points. *)
Definition codepoints (s : string) : list N :=
  (fun b => Byte.to_N b) <$> String.list_byte_of_string s.

(** The characters [str.strip()] removes when called without argument:
    those [str.isspace()] accepts. *)
Definition is_space (c : N) : bool :=
  bool_decide (9 <= c <= 13 \/ 28 <= c <= 32 \/ c = 133 \/ c = 160 \/ c = 5760
               \/ 8192 <= c <= 8202 \/ c = 8232 \/ c = 8233 \/ c = 8239
               \/ c = 8287 \/ c = 12288)%N.

Fixpoint lstrip (s : list N) : list N :=
  match s with
  | c :: s' => if is_space c then lstrip s' else s
  | [] => []
  end.

Definition rstrip (s : list N) : list N := reverse (lstrip (reverse s)).

Definition strip (s : list N) : list N := rstrip (lstrip s).

(** The list [dangerous_chars]: less-than, greater-than, double quote,
    single quote, ampersand and NUL. *)
Definition dangerous_chars : list N := [60; 62; 34; 39; 38; 0]%N.

(** [s.replace(char, '')] for a one-character [char]. *)
Definition remove_char (char : N) (s : list N) : list N :=
  filter (fun c => c <> char) s.

Definition max_length : Z := 50000.

Definition truncated_mark : list N := codepoints "... [truncated]".

Definition sanitize_text_input (text : list N) : list N :=
  match text with
  | [] => []
  | _ =>
      let sanitized := foldl (fun s char => remove_char char s) text dangerous_chars in
      let sanitized :=
        if Z.of_nat (length sanitized) >? max_length
        then take (Z.to_nat max_length) sanitized ++ truncated_mark
        else sanitized in
      strip sanitized
  end.

Section WithLibraries.

(** [os.path.basename] and [os.path.splitext], and the class [\w] of the
    regular-expression engine: library functions. *)
Variable basename : list N -> list N.
Variable splitext : list N -> list N * list N.
Variable is_word : N -> bool.

(** A character outside [[^\w\-_\.]], which [re.sub] leaves in place. *)
Definition kept (c : N) : bool :=
  is_word c || bool_decide (c = 45 \/ c = 95 \/ c = 46)%N.

(** [re.sub(r'[^\w\-_\.]', '_', s)] *)
Definition replace_special (s : list N) : list N :=
  (fun c => if kept c then c else 95%N) <$> s.

Definition sanitize_filename (filename : list N) : list N :=
  let safe_name := basename filename in
  let safe_chars := replace_special safe_name in
  if Z.of_nat (length safe_chars) >? 100
  then
    let '(name, ext) := splitext safe_chars in
    take 95 name ++ ext
  else safe_chars.

End WithLibraries.

Section WithUrllib.

(** [urllib.parse.urlparse(url).hostname]: the host name, [None] when the
    URL has none, or the exception raised on the way; and [str.lower]. *)
Variable hostname : list N -> Outcome (option (list N)).
Variable str_lower : list N -> list N.

Definition startswith (s prefix : list N) : bool := bool_decide (prefix `prefix_of` s).

Definition endswith (s suffix : list N) : bool := bool_decide (suffix `suffix_of` s).

Definition allowed_domains : list (list N) :=
  codepoints <$> ["linkedin.com"; "indeed.com"; "glassdoor.com";
                  "monster.com"; "careerbuilder.com"].

(** [validate_url].  On a missing host name [None.lower()] raises, and the
    bare [except] answers [False] to every exception. *)
Definition validate_url (url : list N) : bool :=
  if negb (existsb (startswith url) [codepoints "http://"; codepoints "https://"])
  then false
  else
    match hostname url with
    | Raised _ => false
    | Returned parsed_hostname =>
        if bool_decide (parsed_hostname ∈ [Some (codepoints "localhost");
                                           Some (codepoints "127.0.0.1")])
        then false
        else
          match parsed_hostname with
          | None => false
          | Some name =>
              let domain := str_lower name in
              existsb (fun allowed => endswith domain allowed) allowed_domains
          end
    end.

End WithUrllib.

End InputSanitizer.

(** ** Agent authentication *)

Module AgentAuthManager.

(** A Python float that is not a whole number of clock ticks: a number
    with a fraction, or one of the three values that [json.loads] reads
    from the literals [NaN], [Infinity] and [-Infinity].  Arithmetic on
    fractions is taken as exact. *)
Inductive PyFloat : Type :=
  | Fraction (q : Q)
  | NaN
  | Infinity
  | NegInfinity.

(** JSON values of a token.  [TNum] is a whole number, like the clock
    readings; arrays and objects are carried by their text. *)
Inductive TokVal : Type :=
  | TNull
  | TBool (b : bool)
  | TNum (n : Z)
  | TFloat (x : PyFloat)
  | TStr (s : string)
  | TOther (json : string).

#[global] Instance Q_eq_dec : EqDecision Q.
Proof. solve_decision. Defined.

#[global] Instance PyFloat_eq_dec : EqDecision PyFloat.
Proof. solve_decision. Defined.

#[global] Instance TokVal_eq_dec : EqDecision TokVal.
Proof. solve_decision. Defined.

(** The value of a sum of numbers: a whole number or a float. *)
Inductive PyNumber : Type :=
  | Num (z : Z)
  | Flt (x : PyFloat).

(** [x + seconds] for a float [x]: NaN and the infinities absorb. *)
Definition add_seconds (x : PyFloat) (seconds : Z) : PyFloat :=
  match x with
  | Fraction q => Fraction (Qplus q (inject_Z seconds))
  | _ => x
  end.

(** [now > expiry]: no number is greater than NaN or than Infinity, every
    number is greater than -Infinity. *)
Definition later_than (now : Z) (expiry : PyNumber) : bool :=
  match expiry with
  | Num z => now >? z
  | Flt (Fraction q) => negb (Qle_bool (inject_Z now) q)
  | Flt NaN => false
  | Flt Infinity => false
  | Flt NegInfinity => true
  end.

(** The fields of the manager. *)
Record t : Type := mk {
  agent_tokens : gmap string string;
  token_expiry : gmap string Z;
  session_timeout : Z
}.

(** [__init__] *)
Definition init : t := mk ∅ ∅ 3600.

(** The two result dicts of [validate_agent_token]:
    [{"valid": True, "agent_id": ...}] and [{"valid": False, "reason": ...}],
    the reason being "Token expired", "Invalid signature" or
    "Token validation error: " followed by the text of the exception. *)
Inductive Reason : Type :=
  | TokenExpired
  | InvalidSignature
  | ValidationError (e : Exception).

Inductive TokenCheck : Type :=
  | Valid (agent_id : TokVal)
  | Invalid (reason : Reason).

Section WithLibraries.

(** [hmac.new(key.encode(), msg.encode(), hashlib.sha256).hexdigest()] *)
Variable hmac_sha256_hex : string -> string -> string.

(** [json.dumps(d, sort_keys=True)] *)
Variable dumps_sorted : gmap string TokVal -> string.

(** [base64.b64encode(json.dumps(d).encode()).decode()] *)
Variable encode_token : gmap string TokVal -> string.

(** [json.loads(base64.b64decode(token).decode())], as far as the code
    uses it: the dict it gives, or the exception raised by the decoding or
    by the first [.get] on a value that is not a dict. *)
Variable decode_token : string -> Outcome (gmap string TokVal).

(** [generate_agent_token].  [secret_key] is the value of
    [os.getenv('AGENT_SECRET_KEY', 'default-dev-key')], [nonce] that of
    [secrets.token_hex(16)], [now] and [later] the two readings of
    [time.time()]. *)
Definition token_data (agent_id agent_version : string) (now : Z) (nonce : string)
    : gmap string TokVal :=
  <["agent_id" := TStr agent_id]>
    (<["version" := TStr agent_version]>
       (<["timestamp" := TNum now]> {["nonce" := TStr nonce]})).

Definition generate_agent_token (secret_key nonce : string) (now later : Z)
    (agent_id agent_version : string) (self : t) : string * t :=
  let token_data := token_data agent_id agent_version now nonce in
  let token_string := dumps_sorted token_data in
  let signature := hmac_sha256_hex secret_key token_string in
  let token := encode_token (<["signature" := TStr signature]> token_data) in
  (token,
   mk (<[agent_id := token]> (agent_tokens self))
      (<[agent_id := later + session_timeout self]> (token_expiry self))
      (session_timeout self)).

(** [token_data.get('timestamp', 0) + self.session_timeout]: numbers and
    booleans add, anything else raises [TypeError]. *)
Definition expiry_of (token_data : gmap string TokVal) (session_timeout : Z)
    : Outcome PyNumber :=
  match default (TNum 0) (token_data !! "timestamp") with
  | TNum n => Returned (Num (n + session_timeout))
  | TBool b => Returned (Num ((if b then 1 else 0) + session_timeout))
  | TFloat x => Returned (Flt (add_seconds x session_timeout))
  | _ => Raised TypeError
  end.

(** The body of the [try] block. *)
Definition check_token (secret_key : string) (now : Z) (token : string) (self : t)
    : Outcome TokenCheck :=
  match decode_token token with
  | Raised e => Raised e
  | Returned token_data =>
      let agent_id := default TNull (token_data !! "agent_id") in
      match expiry_of token_data (session_timeout self) with
      | Raised e => Raised e
      | Returned expiry =>
          if later_than now expiry then Returned (Invalid TokenExpired)
          else
            match token_data !! "signature" with
            | None => Raised (OtherError "KeyError" "'signature'")
            | Some signature =>
                let token_data := delete "signature" token_data in
                let expected_signature :=
                  hmac_sha256_hex secret_key (dumps_sorted token_data) in
                if bool_decide (signature <> TStr expected_signature)
                then Returned (Invalid InvalidSignature)
                else Returned (Valid agent_id)
            end
      end
  end.

(** [validate_agent_token]: the [try] block, with [except Exception]. *)
Definition validate_agent_token (secret_key : string) (now : Z) (token : string)
    (self : t) : TokenCheck :=
  match check_token secret_key now token self with
  | Returned r => r
  | Raised e => Invalid (ValidationError e)
  end.

End WithLibraries.

End AgentAuthManager.

(** ** Tracking helpers of the analytics service *)

Module AnalyticsTracking.

Import AnalyticsService.

(** [trackPerformance(action, duration, metadata = null)]: the object
    literal has [duration_ms] first and the caller's metadata spread after
    it, so the caller's keys win. *)
Definition trackPerformance (delivery_throws : bool) (env : Browser)
    (action : string) (duration : JsVal) (meta : gmap string JsVal) (self : t) : t :=
  trackEvent delivery_throws env "performance" "timing" (Some action) None
    (meta ∪ {["duration_ms" := duration]}) self.

(** All events of a service, handed over or still queued, oldest first. *)
Definition all_events (self : t) : list EventData :=
  concat (batches self) ++ eventQueue self.

(** The value of [scrollPercent]: [Math.round] gives a whole number, or
    NaN or an infinity when the page has no scrollable height. *)
Inductive JsNumber : Type :=
  | Finite (z : Z)
  | NotFinite.

Section WithNumberFormat.

(** The text of a number inside a template literal. *)
Variable number_to_string : Z -> string.

(** [trackScrollDepth(percentage)] *)
Definition trackScrollDepth (delivery_throws : bool) (env : Browser)
    (percentage : Z) (self : t) : t :=
  trackEvent delivery_throws env "engagement" "scroll_depth"
    (Some (number_to_string percentage +:+ "%")) None
    {["scroll_percentage" := JNum percentage]} self.

(** The scroll listener of [setupAutoTracking], on the closure variable
    [maxScrollDepth] and the service.  For a whole number above the
    maximum, which is never negative, [%] is the remainder. *)
Definition on_scroll (delivery_throws : bool) (env : Browser)
    (scrollPercent : JsNumber) (st : Z * t) : Z * t :=
  let '(maxScrollDepth, self) := st in
  match scrollPercent with
  | Finite z =>
      if (z >? maxScrollDepth) && (Z.rem z 25 =? 0)
      then (z, trackScrollDepth delivery_throws env z self)
      else st
  | NotFinite => st
  end.

(** A sequence of scroll events, each with the browser state and the
    outcome of delivery at that moment. *)
Definition scroll_all (events : list (bool * Browser * JsNumber)) (st : Z * t) : Z * t :=
  foldl (fun st ev => on_scroll ev.1.1 ev.1.2 ev.2 st) st events.

End WithNumberFormat.

(** The scroll depths recorded in a list of events. *)
Definition scroll_depths (events : list EventData) : list Z :=
  omap (fun ev =>
          match metadata ev !! "scroll_percentage" with
          | Some (JNum z) => Some z
          | _ => None
          end) events.

(** What stays of a sequence of actions when the calls of [setUserId] are
    left out. *)
Definition is_set_user (a : action) : bool :=
  match a with SetUser _ => true | _ => false end.

Definition without_user (actions : list action) : list action :=
  filter (fun a => is_set_user a = false) actions.

(** While online the queue holds fewer than five events, and no batch is
    empty. *)
Definition queue_in_bounds (self : t) : Prop :=
  (isOnline self = true -> (length (eventQueue self) <= 4)%nat)
  /\ Forall (fun batch => batch <> []) (batches self).

End AnalyticsTracking.

(* ===================================================================== *)
(** * Part II: theorems                                                   *)
(* ===================================================================== *)

(** ** The circuit breaker on its own *)

Module BreakerFacts.

Import CircuitBreaker.

Lemma is_open_keeps_config now cb :
  failure_threshold (snd (is_open now cb)) = failure_threshold cb
  /\ recovery_timeout (snd (is_open now cb)) = recovery_timeout cb
  /\ failure_count (snd (is_open now cb)) = failure_count cb
  /\ last_failure_time (snd (is_open now cb)) = last_failure_time cb.
Proof.
  unfold is_open.
  destruct (state cb); try done.
  destruct (last_failure_time cb) as [last|] eqn:E; try done.
  destruct (now - last >? recovery_timeout cb); simpl; by rewrite ?E.
Qed.

Lemma is_open_past_cooldown now last cb :
  state cb = OPEN ->
  last_failure_time cb = Some last ->
  recovery_timeout cb < now - last ->
  is_open now cb =
    (Returned false,
     mk (failure_threshold cb) (recovery_timeout cb) (failure_count cb)
        (last_failure_time cb) HALF_OPEN).
Proof.
  intros Hs Hl Hlt. unfold is_open. rewrite Hs, Hl.
  destruct (Z.gtb_spec (now - last) (recovery_timeout cb)); [done | lia].
Qed.

Lemma is_open_within_cooldown now last cb :
  state cb = OPEN ->
  last_failure_time cb = Some last ->
  now - last <= recovery_timeout cb ->
  is_open now cb = (Returned true, cb).
Proof.
  intros Hs Hl Hle. unfold is_open. rewrite Hs, Hl.
  destruct (Z.gtb_spec (now - last) (recovery_timeout cb)); [lia | done].
Qed.

Lemma is_open_not_open now cb :
  state cb <> OPEN -> is_open now cb = (Returned false, cb).
Proof. intros Hs. unfold is_open. by destruct (state cb). Qed.

(** The breaker component of [is_open]'s result when it blocks or raises
    is the breaker it was given. *)
Lemma is_open_true_same now cb r cb' :
  is_open now cb = (r, cb') -> r <> Returned false -> cb' = cb.
Proof.
  unfold is_open. intros H Hr.
  destruct (state cb); try (injection H as <- <-; done).
  destruct (last_failure_time cb) as [last|]; [| by injection H as <- <-].
  destruct (now - last >? recovery_timeout cb); injection H as <- <-; done.
Qed.

Lemma reachable_tripped_means_counted cb :
  reachable cb -> tripped_means_counted cb.
Proof.
  unfold tripped_means_counted.
  induction 1 as [threshold timeout | o cb Hr IH]; [done |].
  destruct o as [now | | now]; simpl.
  - destruct (is_open_keeps_config now cb) as (-> & _ & -> & _).
    intros Hne. apply IH. intros Hc. apply Hne.
    unfold is_open. by rewrite Hc.
  - done.
  - destruct (Z.geb_spec (failure_count cb + 1) (failure_threshold cb)); [lia |].
    intros Hc. specialize (IH Hc). lia.
Qed.

Lemma run_ops_snoc ops o cb : run_ops (ops ++ [o]) cb = run_op o (run_ops ops cb).
Proof. unfold run_ops. by rewrite fold_left_app. Qed.

Lemma failures_snoc ops o :
  failures (ops ++ [o]) = (failures ops + if is_failure o then 1 else 0)%nat.
Proof.
  unfold failures. rewrite filter_app, length_app.
  by destruct o.
Qed.

(** Below the threshold a breaker that started CLOSED at 0 stays CLOSED and
    its counter is the number of failures recorded. *)
Lemma run_ops_below ops cb :
  state cb = CLOSED ->
  failure_count cb = 0 ->
  consecutive ops ->
  Z.of_nat (failures ops) < failure_threshold cb ->
  state (run_ops ops cb) = CLOSED
  /\ failure_count (run_ops ops cb) = Z.of_nat (failures ops)
  /\ failure_threshold (run_ops ops cb) = failure_threshold cb.
Proof.
  intros Hs Hc. induction ops as [| o ops IH] using rev_ind; intros Hcons Hlt.
  - simpl. split_and!; [done | by rewrite Hc | done].
  - apply Forall_app in Hcons as [Hcons Ho%Forall_inv].
    rewrite failures_snoc in Hlt. rewrite run_ops_snoc, failures_snoc.
    destruct IH as (IHs & IHc & IHt); [done | lia |].
    destruct o as [now | | now]; [| done |]; simpl in *.
    + rewrite is_open_not_open by (by rewrite IHs). simpl.
      split_and!; [done | lia | done].
    + rewrite IHc, IHt, IHs.
      destruct (Z.geb_spec (Z.of_nat (failures ops) + 1) (failure_threshold cb));
        [lia |].
      split_and!; [done | lia | done].
Qed.



End BreakerFacts.

(** ** One pass through the retry loop *)

Module ClientFacts.

Import CircuitBreaker LLMClient BreakerFacts.

Lemma net_calls_app tr1 tr2 :
  net_calls (tr1 ++ tr2) = (net_calls tr1 + net_calls tr2)%nat.
Proof. unfold net_calls. by rewrite filter_app, length_app. Qed.

Lemma net_calls_snoc_call tr prompt config :
  net_calls (tr ++ [NetCall prompt config]) = S (net_calls tr).
Proof. rewrite net_calls_app. unfold net_calls at 2. simpl. lia. Qed.

Lemma is_open_raises now cb e cb' :
  is_open now cb = (Raised e, cb') -> e = TypeError /\ cb' = cb.
Proof.
  unfold is_open. intros H.
  destruct (state cb); try done.
  destruct (last_failure_time cb) as [last|]; [| by injection H as <- <-].
  by destruct (now - last >? recovery_timeout cb).
Qed.

Lemma sleeps_app tr1 tr2 : sleeps (tr1 ++ tr2) = sleeps tr1 ++ sleeps tr2.
Proof. unfold sleeps. apply omap_app. Qed.

Lemma sleeps_failed_rounds prompt config attempt k :
  sleeps (failed_rounds prompt config attempt k)
    = (fun a => 2 ^ a) <$> seqZ attempt (Z.of_nat k).
Proof.
  revert attempt. induction k as [| k IH]; intros attempt; [done |].
  rewrite seqZ_cons by lia. rewrite fmap_cons.
  replace (Z.pred (Z.of_nat (S k))) with (Z.of_nat k) by lia.
  rewrite <- Z.add_1_r, <- IH. done.
Qed.

Lemma net_calls_failed_rounds prompt config attempt k :
  net_calls (failed_rounds prompt config attempt k) = k.
Proof.
  revert attempt. induction k as [| k IH]; intros attempt; [done |].
  change (failed_rounds prompt config attempt (S k))
    with ([NetCall prompt config; Sleep (2 ^ attempt)]
            ++ failed_rounds prompt config (attempt + 1) k).
  rewrite net_calls_app, IH. done.
Qed.

Section WithNetwork.

Variable net : Network.

(** The function [attempt_body] and the case list [attempt_result]
    describe the same thing. *)
Lemma attempt_body_cases self prompt config attempt st :
  attempt_result net self prompt config attempt st
    (attempt_body net self prompt config attempt st).
Proof.
  destruct st as [clk tr cb0].
  unfold attempt_body, try_except, mbind, M_bind, breaker_is_open. simpl.
  destruct (is_open clk cb0) as [[[|]|e] cb] eqn:Hio; simpl.
  - assert (cb = cb0) as -> by (by eapply is_open_true_same).
    by apply attempt_blocked.
  - unfold make_llm_call. simpl.
    destruct (net (net_calls tr) prompt config) as [[text|e] secs] eqn:Hnet; simpl.
    + by eapply attempt_success.
    + destruct (caught_by_retry e) eqn:Hc.
      * unfold breaker_record_failure. simpl.
        destruct (Z.eqb_spec attempt (retry_attempts self - 1)) as [Heq|Hne].
        -- unfold try_fallback_model, make_llm_call. simpl.
           rewrite net_calls_snoc_call, <- app_assoc. simpl.
           pose proof (attempt_fallback net self prompt config attempt
                         (mkSt clk tr cb0) cb e secs _ Hio Hnet Hc Heq eq_refl) as H.
           simpl in H.
           by destruct (reply (net (S (net_calls tr)) prompt (fallback_config config))).
        -- unfold sleep. simpl. rewrite <- app_assoc. simpl.
           by eapply attempt_retry.
      * by eapply attempt_fatal.
  - destruct (is_open_raises _ _ _ _ Hio) as [-> ->]. simpl.
    by apply attempt_type_error.
Qed.

Lemma retry_loop_S self prompt config remaining attempt st :
  retry_loop net self prompt config (S remaining) attempt st =
    match attempt_body net self prompt config attempt st with
    | (Returned (Some response), st1) => (Returned response, st1)
    | (Returned None, st1) =>
        retry_loop net self prompt config remaining (attempt + 1) st1
    | (Raised e, st1) => (Raised e, st1)
    end.
Proof.
  simpl. unfold mbind, M_bind.
  destruct (attempt_body net self prompt config attempt st) as [[[r|]|e] st1]; done.
Qed.

Lemma is_open_true_state now cb cb' :
  is_open now cb = (Returned true, cb') -> state cb = OPEN.
Proof.
  unfold is_open. destruct (state cb); try done.
Qed.

(** *** The clock of a run *)

Lemma retry_loop_clock self prompt config remaining attempt st :
  (forall i p c, 0 <= latency (net i p c) <= timeout self) ->
  0 <= attempt ->
  attempt + Z.of_nat (S remaining) = retry_attempts self ->
  clock (snd (retry_loop net self prompt config (S remaining) attempt st))
    <= clock st + (Z.of_nat remaining + 2) * timeout self
       + 2 ^ (attempt + Z.of_nat remaining) - 2 ^ attempt.
Proof.
  intros Hlat. revert attempt st.
  assert (0 <= timeout self) as HT by (specialize (Hlat 0%nat prompt config); lia).
  assert (forall a b, 0 <= a -> 0 <= b -> 0 < 2 ^ a <= 2 ^ (a + b)) as Hpow.
  { intros a b Ha Hb. split; [by apply Z.pow_pos_nonneg |].
    apply Z.pow_le_mono_r; lia. }
  induction remaining as [| remaining IH]; intros attempt st Ha Hn;
    rewrite retry_loop_S.
  - pose proof (Hpow attempt 0 Ha ltac:(lia)) as Hp1.
    change (Z.of_nat 0) with 0.
    destruct (attempt_body_cases self prompt config attempt st)
      as [Hio | Hio | cb text secs Hio Hnet | cb e secs Hio Hnet Hc
          | cb e secs Hio Hnet Hc Hne | cb e secs r Hio Hnet Hc Heq Hr];
    try (pose proof (Hlat (net_calls (trace st)) prompt config) as Hl;
         rewrite Hnet in Hl; simpl in Hl);
    try (pose proof (Hlat (S (net_calls (trace st))) prompt (fallback_config config)) as Hl2;
         rewrite Hr in Hl2);
    try (simpl; nia).
    destruct (reply r); simpl; nia.
  - pose proof (Hpow attempt (Z.of_nat (S remaining)) Ha ltac:(lia)) as Hp2.
    destruct (attempt_body_cases self prompt config attempt st)
      as [Hio | Hio | cb text secs Hio Hnet | cb e secs Hio Hnet Hc
          | cb e secs Hio Hnet Hc Hne | cb e secs r Hio Hnet Hc Heq Hr];
    try (pose proof (Hlat (net_calls (trace st)) prompt config) as Hl;
         rewrite Hnet in Hl; simpl in Hl);
    try (pose proof (Hlat (S (net_calls (trace st))) prompt (fallback_config config)) as Hl2;
         rewrite Hr in Hl2);
    try (simpl; nia).
    + set (st1 := mkSt _ _ _).
      specialize (IH (attempt + 1) st1 ltac:(lia) ltac:(lia)).
      replace (attempt + 1 + Z.of_nat remaining)
        with (attempt + Z.of_nat (S remaining)) in IH by lia.
      replace (2 ^ (attempt + 1)) with (2 * 2 ^ attempt) in IH
        by (rewrite Z.pow_add_r by lia; lia).
      unfold st1 at 2 in IH. cbn [clock] in IH.
      replace ((Z.of_nat (S remaining) + 2) * timeout self)
        with ((Z.of_nat remaining + 2) * timeout self + timeout self) by lia.
      lia.
Qed.

(** *** What a run hands back *)

Lemma retry_loop_outcome self prompt config remaining attempt st out st' :
  attempt + Z.of_nat remaining = retry_attempts self ->
  retry_loop net self prompt config remaining attempt st = (out, st') ->
  match out with
  | Returned text =>
      exists tr p c,
        trace st' = tr ++ [NetCall p c]
        /\ reply (net (net_calls tr) p c) = Returned text
  | Raised e =>
      (e = CircuitBreakerOpenException "LLM service unavailable"
       /\ state (breaker st') = OPEN)
      \/ (e = LLMProcessingException "All retry attempts failed"
          /\ remaining = 0%nat /\ st' = st)
      \/ (e = TypeError /\ state (breaker st') = OPEN
          /\ last_failure_time (breaker st') = None)
      \/ (exists tr p c,
            trace st' = tr ++ [NetCall p c]
            /\ reply (net (net_calls tr) p c) = Raised e)
  end.
Proof.
  revert attempt st.
  induction remaining as [| remaining IH]; intros attempt st Hn.
  - simpl. intros [= <- <-]. right; left. done.
  - rewrite retry_loop_S.
    destruct (attempt_body_cases self prompt config attempt st)
      as [Hio | Hio | cb text secs Hio Hnet | cb e secs Hio Hnet Hc
          | cb e secs Hio Hnet Hc Hne | cb e secs r Hio Hnet Hc Heq Hr].
    + intros [= <- <-]. left. split; [done |]. by eapply is_open_true_state.
    + intros [= <- <-]. right; right; left. split; [done |].
      unfold is_open in Hio. destruct (state (breaker st)); try done.
      split; [done |].
      destruct (last_failure_time (breaker st)) as [last|]; [| done].
      by destruct (clock st - last >? recovery_timeout (breaker st)).
    + intros [= <- <-]. exists (trace st), prompt, config. simpl.
      by rewrite Hnet.
    + intros [= <- <-]. right; right; right.
      exists (trace st), prompt, config. simpl. by rewrite Hnet.
    + intros Hrun. apply IH in Hrun; [| lia].
      destruct out as [text | e']; [done |].
      destruct Hrun as [? | [(_ & -> & _) | ?]]; [auto | lia | auto].
    + assert (Hfb : exists tr,
                 trace st ++ [NetCall prompt config;
                              NetCall prompt (fallback_config config)]
                 = tr ++ [NetCall prompt (fallback_config config)]
                 /\ net_calls tr = S (net_calls (trace st))).
      { exists (trace st ++ [NetCall prompt config]).
        rewrite <- app_assoc. split; [done |]. apply net_calls_snoc_call. }
      destruct Hfb as (tr & Htr & Hcalls).
      destruct (reply r) as [text | e'] eqn:Hrep; intros [= <- <-]; simpl.
      * exists tr, prompt, (fallback_config config).
        rewrite Hcalls, Hr. done.
      * right; right; right. exists tr, prompt, (fallback_config config).
        rewrite Hcalls, Hr. done.
Qed.

(** *** Runs whose course the hypotheses fix *)

(** Case analysis on [attempt_body] that drops the cases at odds with
    what is known about [is_open] and the network. *)
Ltac attempt_cases self prompt config attempt st :=
  destruct (attempt_body_cases self prompt config attempt st)
    as [Hio' | Hio' | cb' text' secs' Hio' Hnet' | cb' e' secs' Hio' Hnet' Hc'
        | cb' e' secs' Hio' Hnet' Hc' Hne' | cb' e' secs' r' Hio' Hnet' Hc' Heq' Hr'];
  repeat match goal with
    | H : is_open ?n ?c = _, H' : is_open ?n ?c = _ |- _ =>
        rewrite H in H'; injection H' as ?; subst
    | H : net ?i ?p ?c = _, H' : net ?i ?p ?c = _ |- _ =>
        rewrite H in H'; injection H' as ?; subst
    end;
  try discriminate; try congruence; try lia.

Lemma retry_loop_blocked self prompt config remaining attempt st last :
  state (breaker st) = OPEN ->
  last_failure_time (breaker st) = Some last ->
  clock st - last <= recovery_timeout (breaker st) ->
  retry_loop net self prompt config (S remaining) attempt st =
    (Raised (CircuitBreakerOpenException "LLM service unavailable"), st).
Proof.
  intros Hs Hl Hle.
  pose proof (is_open_within_cooldown _ _ _ Hs Hl Hle) as Hio.
  rewrite retry_loop_S.
  attempt_cases self prompt config attempt st; try done.
Qed.

Lemma retry_loop_success self prompt config remaining attempt st cb text secs :
  is_open (clock st) (breaker st) = (Returned false, cb) ->
  net (net_calls (trace st)) prompt config = mkReply (Returned text) secs ->
  retry_loop net self prompt config (S remaining) attempt st =
    (Returned text,
     mkSt (clock st + secs) (trace st ++ [NetCall prompt config])
          (record_success cb)).
Proof.
  intros Hio Hnet. rewrite retry_loop_S.
  attempt_cases self prompt config attempt st; try done.
Qed.

Lemma retry_loop_fatal self prompt config remaining attempt st cb e secs :
  is_open (clock st) (breaker st) = (Returned false, cb) ->
  net (net_calls (trace st)) prompt config = mkReply (Raised e) secs ->
  caught_by_retry e = false ->
  retry_loop net self prompt config (S remaining) attempt st =
    (Raised e,
     mkSt (clock st + secs) (trace st ++ [NetCall prompt config]) cb).
Proof.
  intros Hio Hnet Hc. rewrite retry_loop_S.
  attempt_cases self prompt config attempt st; try done.
Qed.

Lemma is_open_count now cb r cb' :
  is_open now cb = (r, cb') -> failure_count cb' = failure_count cb.
Proof.
  intros H. pose proof (is_open_keeps_config now cb) as (_ & _ & Hc & _).
  by rewrite H in Hc.
Qed.

(** The loop follows [run_course]. *)
Lemma retry_loop_run self prompt config remaining attempt st :
  attempt + Z.of_nat remaining = retry_attempts self ->
  run_course net self prompt config attempt remaining st
    (retry_loop net self prompt config remaining attempt st).
Proof.
  unfold run_course. revert attempt st.
  induction remaining as [| remaining IH]; intros attempt st Hn;
    set (run := retry_loop net self prompt config _ attempt st);
    set (calls := net_calls (trace st));
    set (count := failure_count (breaker st)).
  - exists 0%nat, []. subst run. simpl. rewrite app_nil_r.
    split_and!; [done | lia | intros i Hi; lia |]. left.
    split_and!; [done | eauto | subst count; lia].
  - subst run. rewrite retry_loop_S.
    destruct (attempt_body_cases self prompt config attempt st)
      as [Hio | Hio | cb text secs Hio Hnet | cb e secs Hio Hnet Hc
          | cb e secs Hio Hnet Hc Hne | cb e secs r Hio Hnet Hc Heq Hr];
      try (pose proof (is_open_count _ _ _ _ Hio) as Hcount).
    + exists 0%nat, []. simpl. rewrite app_nil_r.
      split_and!; [done | lia | intros i Hi; lia |]. left.
      split_and!; [done | eauto | subst count; lia].
    + exists 0%nat, []. simpl. rewrite app_nil_r.
      split_and!; [done | lia | intros i Hi; lia |]. left.
      split_and!; [done | eauto | subst count; lia].
    + exists 0%nat, [NetCall prompt config]. simpl.
      split_and!; [done | lia | intros i Hi; lia |]. right; left.
      subst calls. rewrite Nat.add_0_r, Hnet. split_and!; try done. lia.
    + exists 0%nat, [NetCall prompt config]. simpl.
      split_and!; [done | lia | intros i Hi; lia |]. right; left.
      subst calls. rewrite Nat.add_0_r, Hnet. simpl.
      split_and!; [done | lia | done | done |].
      intros e0 [= <-]. split; [done | subst count; lia].
    + set (st1 := mkSt _ _ _).
      assert (Hcalls : net_calls (trace st1) = S calls).
      { unfold st1. cbn [trace]. rewrite net_calls_app. unfold net_calls at 2.
        simpl. subst calls. lia. }
      assert (Hcount1 : failure_count (breaker st1) = count + 1).
      { unfold st1. simpl. subst count. lia. }
      destruct (IH (attempt + 1) st1 ltac:(lia)) as (k & tail & Htr & Hk & Hfail & Hend).
      rewrite Hcalls in Hfail, Hend. rewrite Hcount1 in Hend.
      exists (S k), tail. split_and!.
      * rewrite Htr. unfold st1. cbn [trace]. rewrite <- app_assoc. done.
      * lia.
      * intros [| i] Hi.
        -- rewrite Nat.add_0_r. eauto.
        -- replace (calls + S i)%nat with (S calls + i)%nat by lia.
           apply Hfail. lia.
      * replace (calls + S k)%nat with (S calls + k)%nat by lia.
        replace (count + Z.of_nat (S k)) with (count + 1 + Z.of_nat k) by lia.
        destruct Hend as [? | [(? & ? & ? & ? & ?) | (? & -> & ? & ? & ?)]];
          [by left | right; left; split_and!; try done; lia |].
        right; right. split_and!; done.
    + exists 0%nat, [NetCall prompt config; NetCall prompt (fallback_config config)].
      assert (remaining = 0%nat) as -> by lia.
      subst calls. rewrite !Nat.add_0_r, Nat.add_1_r, Hr.
      split_and!; [by destruct (reply r) | simpl; lia | intros i Hi; lia |].
      right; right. split_and!; [done | done | eauto | by destruct (reply r) |].
      destruct (reply r); simpl; subst count; lia.
Qed.



Lemma call_with_retry_unfold self prompt config :
  1 <= retry_attempts self ->
  call_with_retry net self prompt config =
    retry_loop net self prompt config (S (Z.to_nat (retry_attempts self - 1))) 0.
Proof.
  intros Hn. unfold call_with_retry.
  by replace (Z.to_nat (retry_attempts self))
    with (S (Z.to_nat (retry_attempts self - 1))) by lia.
Qed.

Lemma call_with_retry_no_attempts self prompt config st :
  retry_attempts self <= 0 ->
  call_with_retry net self prompt config st =
    (Raised (LLMProcessingException "All retry attempts failed"), st).
Proof.
  intros Hn. unfold call_with_retry.
  by replace (Z.to_nat (retry_attempts self)) with 0%nat by lia.
Qed.

Lemma call_with_retry_run self prompt config st :
  run_course net self prompt config 0 (Z.to_nat (retry_attempts self)) st
    (call_with_retry net self prompt config st).
Proof.
  destruct (Z.le_gt_cases (retry_attempts self) 0) as [Hn | Hn].
  - rewrite call_with_retry_no_attempts by done.
    replace (Z.to_nat (retry_attempts self)) with 0%nat by lia.
    exists 0%nat, []. simpl. rewrite app_nil_r.
    split_and!; [done | lia | intros i Hi; lia |]. left.
    split_and!; [done | eauto | lia].
  - apply retry_loop_run. lia.
Qed.

Lemma call_with_retry_blocked self prompt config st last :
  state (breaker st) = OPEN ->
  last_failure_time (breaker st) = Some last ->
  clock st - last <= recovery_timeout (breaker st) ->
  exists e,
    call_with_retry net self prompt config st = (Raised e, st)
    /\ (1 <= retry_attempts self ->
        e = CircuitBreakerOpenException "LLM service unavailable").
Proof.
  intros Hs Hl Hle.
  destruct (Z.le_gt_cases 1 (retry_attempts self)) as [Hn | Hn].
  - eexists. rewrite call_with_retry_unfold by done.
    split; [by eapply retry_loop_blocked | done].
  - eexists. rewrite call_with_retry_no_attempts by lia.
    split; [done | lia].
Qed.

End WithNetwork.

(** [try_fallback_model] on concrete configurations: the model is replaced
    by the fallback model, or by [None] when the configuration names none. *)
Example fallback_config_cv :
  fallback_config Scenarios.cv_config !! "model" = Some (PStr "claude-3-haiku-20240307")
  /\ fallback_config Scenarios.cv_config !! "max_tokens" = Some (PInt 4000)
  /\ fallback_config Scenarios.cv_parsing_entry !! "model" = Some PNone.
Proof. split_and!; reflexivity. Qed.

End ClientFacts.

(** ** Properties of the circuit breaker *)

Module Breaker.

Import CircuitBreaker LLMClient BreakerFacts ClientFacts Scenarios.

(** C9.  For every breaker reachable from a freshly constructed one:
    [is_open] leaves [failure_count] as it is, and of the three methods
    only [record_success] can lower it; while the state is HALF_OPEN the
    counter is at or above [failure_threshold], and one [record_failure]
    puts the breaker back to OPEN; and after any [record_failure] the
    state is OPEN exactly when [failure_count >= failure_threshold]. *)
Theorem half_open_keeps_count (cb : CircuitBreaker.t) :
  reachable cb ->
  (forall now, failure_count (snd (is_open now cb)) = failure_count cb)
  /\ (forall o, o <> RecordSuccess -> failure_count cb <= failure_count (run_op o cb))
  /\ (state cb = HALF_OPEN ->
      failure_threshold cb <= failure_count cb
      /\ forall now, state (record_failure now cb) = OPEN)
  /\ (forall now,
        state (record_failure now cb) = OPEN
        <-> failure_threshold (record_failure now cb)
            <= failure_count (record_failure now cb)).
Proof.
  intros Hreach.
  pose proof (reachable_tripped_means_counted cb Hreach) as Hinv.
  unfold tripped_means_counted in Hinv.
  split_and!.
  - intros now. apply is_open_keeps_config.
  - intros [now | | now] Ho; simpl; [| done | lia].
    destruct (is_open_keeps_config now cb) as (_ & _ & -> & _). lia.
  - intros Hs. assert (failure_threshold cb <= failure_count cb) as Hle.
    { apply Hinv. by rewrite Hs. }
    split; [done |]. intros now. simpl.
    destruct (Z.geb_spec (failure_count cb + 1) (failure_threshold cb)); [done | lia].
  - intros now. simpl.
    destruct (Z.geb_spec (failure_count cb + 1) (failure_threshold cb)) as [Hge | Hlt].
    + split; [lia | done].
    + split; [| lia]. intros Hs.
      assert (failure_threshold cb <= failure_count cb); [| lia].
      apply Hinv. by rewrite Hs.
Qed.

(** The default breaker, tripped and then probed after the cooldown, is a
    reachable HALF_OPEN breaker with the counter still at five. *)
Lemma half_open_keeps_count_witness :
  let cb := snd (is_open 220 tripped_breaker) in
  reachable cb /\ state cb = HALF_OPEN /\ failure_count cb = 5
  /\ state (record_failure 221 cb) = OPEN.
Proof.
  assert (reachable (snd (is_open 220 tripped_breaker))) as Hreach.
  { apply (reach_step (IsOpen 220)).
    apply (reach_step (RecordFailure 100)), (reach_step (RecordFailure 99)),
      (reach_step (RecordFailure 98)), (reach_step (RecordFailure 97)),
      (reach_step (RecordFailure 96)), reach_init. }
  split; [exact Hreach |].
  destruct (half_open_keeps_count _ Hreach) as (_ & _ & Hhalf & _).
  split; [reflexivity |]. split; [reflexivity |].
  apply Hhalf. reflexivity.
Defined.

(** C3.  When the state is OPEN and more than [recovery_timeout] has
    passed since [last_failure_time], [is_open] moves the breaker to
    HALF_OPEN and answers [False], so the call goes ahead; every
    [record_success] sets the counter to 0 and the state to CLOSED; and a
    call that then succeeds leaves the breaker at [record_success] of that
    HALF_OPEN breaker, that is CLOSED with the counter at 0, after one
    network call. *)
Theorem recovery_passes_through_half_open (cb : CircuitBreaker.t) (now last : Z) :
  state cb = OPEN ->
  last_failure_time cb = Some last ->
  recovery_timeout cb < now - last ->
  exists cb',
    is_open now cb = (Returned false, cb')
    /\ state cb' = HALF_OPEN
    /\ (forall c, failure_count (record_success c) = 0
                  /\ state (record_success c) = CLOSED)
    /\ (forall net self prompt config tr text secs,
          1 <= retry_attempts self ->
          net (net_calls tr) prompt config = mkReply (Returned text) secs ->
          exists st',
            call_with_retry net self prompt config (mkSt now tr cb)
              = (Returned text, st')
            /\ breaker st' = record_success cb'
            /\ state (breaker st') = CLOSED
            /\ failure_count (breaker st') = 0
            /\ trace st' = tr ++ [NetCall prompt config]).
Proof.
  intros Hs Hl Hlt.
  pose proof (is_open_past_cooldown now last cb Hs Hl Hlt) as Hio.
  eexists. split; [exact Hio |]. split; [done |]. split; [done |].
  intros net self prompt config tr text secs Hn Hnet.
  eexists. rewrite call_with_retry_unfold by done.
  split; [by eapply retry_loop_success |]. done.
Qed.

Lemma recovery_passes_through_half_open_witness :
  exists st',
    call_with_retry net_ok LLMClient.init_default cv_prompt cv_config cooled_down
      = (Returned "{}", st')
    /\ state (breaker st') = CLOSED /\ failure_count (breaker st') = 0.
Proof.
  destruct (recovery_passes_through_half_open tripped_breaker 220 100)
    as (cb' & _ & _ & _ & Hcall); [reflexivity | reflexivity | reflexivity |].
  destruct (Hcall net_ok LLMClient.init_default cv_prompt cv_config [] "{}" 2)
    as (st' & Hrun & _ & Hstate & Hcount & _); [simpl; lia | reflexivity |].
  exists st'. split; [exact Hrun |]. split; [exact Hstate | exact Hcount].
Defined.

(** C2, as the code has it.  Take a breaker that is CLOSED with the
    counter at 0 (fresh, or after a success) and any sequence of [is_open]
    and [record_failure] calls on it.  While fewer than [failure_threshold]
    failures have been recorded the state is CLOSED, and the
    [record_failure] that brings their number to [failure_threshold] makes
    it OPEN.  While the state is OPEN and no more than [recovery_timeout]
    has passed since the last failure, an invocation makes no network call,
    changes nothing and raises (with at least one attempt configured,
    [CircuitBreakerOpenException]). *)
Theorem breaker_opens_at_threshold_then_blocks :
  (forall (cb : CircuitBreaker.t) (ops : list op),
      state cb = CLOSED ->
      failure_count cb = 0 ->
      consecutive ops ->
      (Z.of_nat (failures ops) < failure_threshold cb ->
       state (run_ops ops cb) = CLOSED)
      /\ (forall now,
            Z.of_nat (failures ops) + 1 = failure_threshold cb ->
            state (run_ops (ops ++ [RecordFailure now]) cb) = OPEN))
  /\ (forall net self prompt config st last,
        state (breaker st) = OPEN ->
        last_failure_time (breaker st) = Some last ->
        clock st - last <= recovery_timeout (breaker st) ->
        exists e,
          call_with_retry net self prompt config st = (Raised e, st)
          /\ (1 <= retry_attempts self ->
              e = CircuitBreakerOpenException "LLM service unavailable")).
Proof.
  split.
  - intros cb ops Hs Hc Hcons. split.
    + intros Hlt. by apply run_ops_below.
    + intros now Hn. rewrite run_ops_snoc.
      destruct (run_ops_below ops cb) as (_ & Hcount & Hthr); [done | done | done | lia |].
      simpl. rewrite Hcount, Hthr.
      destruct (Z.geb_spec (Z.of_nat (failures ops) + 1) (failure_threshold cb));
        [done | lia].
  - intros net self prompt config st last. apply call_with_retry_blocked.
Qed.

Lemma breaker_opens_at_threshold_then_blocks_witness :
  let four := [IsOpen 0; RecordFailure 96; IsOpen 96; RecordFailure 97;
               IsOpen 97; RecordFailure 98; IsOpen 98; RecordFailure 99;
               IsOpen 99] in
  state (run_ops four CircuitBreaker.init_default) = CLOSED
  /\ state (run_ops (four ++ [RecordFailure 100]) CircuitBreaker.init_default) = OPEN
  /\ exists e,
       call_with_retry net_ok LLMClient.init_default cv_prompt cv_config cooling_down
         = (Raised e, cooling_down)
       /\ e = CircuitBreakerOpenException "LLM service unavailable".
Proof.
  intros four.
  destruct breaker_opens_at_threshold_then_blocks as [Hopen Hblock].
  destruct (Hopen CircuitBreaker.init_default four) as [H4 H5];
    [reflexivity | reflexivity | repeat constructor; discriminate |].
  split; [apply H4; reflexivity |]. split; [apply H5; reflexivity |].
  destruct (Hblock net_ok LLMClient.init_default cv_prompt cv_config cooling_down 100)
    as (e & Hrun & He); [reflexivity | reflexivity | vm_compute; discriminate |].
  exists e. split; [exact Hrun |]. apply He. simpl; lia.
Defined.

End Breaker.

(** ** Properties of the invoker *)

Module Invoker.

Import CircuitBreaker LLMClient BreakerFacts ClientFacts Scenarios.

(** C1, as the code has it.  [call_with_retry] always finishes, and hands
    back either the text of the last network call it made, or an
    exception: [CircuitBreakerOpenException] with the breaker OPEN,
    [LLMProcessingException] when no attempt is configured, [TypeError]
    for an OPEN breaker without a failure time, or else the exception its
    last network call raised. *)
Theorem call_with_retry_outcome (net : Network) (self : LLMClient.t)
    (prompt : string) (config : Config) (st : St) :
  exists out st',
    call_with_retry net self prompt config st = (out, st')
    /\ match out with
       | Returned text =>
           exists tr p c,
             trace st' = tr ++ [NetCall p c]
             /\ reply (net (net_calls tr) p c) = Returned text
       | Raised e =>
           (e = CircuitBreakerOpenException "LLM service unavailable"
            /\ state (breaker st') = OPEN)
           \/ (e = LLMProcessingException "All retry attempts failed"
               /\ retry_attempts self <= 0 /\ st' = st)
           \/ (e = TypeError /\ state (breaker st') = OPEN
               /\ last_failure_time (breaker st') = None)
           \/ (exists tr p c,
                 trace st' = tr ++ [NetCall p c]
                 /\ reply (net (net_calls tr) p c) = Raised e)
       end.
Proof.
  destruct (call_with_retry net self prompt config st) as [out st'] eqn:Hrun.
  exists out, st'. split; [done |].
  destruct (Z.le_gt_cases (retry_attempts self) 0) as [Hn | Hn].
  - rewrite call_with_retry_no_attempts in Hrun by done.
    injection Hrun as <- <-. right; left. done.
  - unfold call_with_retry in Hrun.
    apply retry_loop_outcome in Hrun; [| lia].
    destruct out as [text | e]; [done |].
    destruct Hrun as [? | [(-> & Hz & ->) | [? | ?]]]; auto.
    lia.
Qed.

(** Against C1 as stated: with the service refusing connections, a fresh
    client hands its caller an exception. *)
Lemma refused_connection_reaches_caller :
  fst (call_with_retry net_refused LLMClient.init_default cv_prompt cv_config
         (initial_state 0)) = Raised ConnectionError
  /\ forall text,
       fst (call_with_retry net_refused LLMClient.init_default cv_prompt cv_config
              (initial_state 0)) <> Returned text.
Proof. split; [reflexivity | intros text H; vm_compute in H; discriminate]. Qed.

(** Against C2 as stated: inside the cooldown the caller gets the
    breaker's exception, not the output of a fallback extractor. *)
Lemma open_breaker_raises_to_caller :
  state (breaker cooling_down) = OPEN
  /\ last_failure_time (breaker cooling_down) = Some 100
  /\ clock cooling_down - 100 < recovery_timeout (breaker cooling_down)
  /\ call_with_retry net_ok LLMClient.init_default cv_prompt cv_config cooling_down
     = (Raised (CircuitBreakerOpenException "LLM service unavailable"), cooling_down)
  /\ forall text,
       fst (call_with_retry net_ok LLMClient.init_default cv_prompt cv_config
              cooling_down) <> Returned text.
Proof.
  split_and!; try reflexivity.
  intros text H. vm_compute in H. discriminate.
Qed.

(** C4, as the code has it.  An invocation follows [run_course]: some
    number [k], below the attempt count, of primary calls that fail with a
    timeout or connection error, each adding one to the failure counter and
    followed by a sleep of [2 ** attempt] seconds, and then no further
    call, one more primary call, or (as the last attempt only) a failed
    primary call and the fallback-model call.  So it makes at most
    [retry_attempts + 1] network calls, its sleeps are [1, 2, 4, ...], it
    always ends, and with every call taking between 0 and [timeout] seconds
    it lasts at most [(retry_attempts + 1) * timeout] seconds of calls plus
    [2 ** (retry_attempts - 1) - 1] seconds of sleep. *)
Theorem call_with_retry_bounded (net : Network) (self : LLMClient.t)
    (prompt : string) (config : Config) (st : St) :
  let n := Z.to_nat (retry_attempts self) in
  let run := call_with_retry net self prompt config st in
  run_course net self prompt config 0 n st run
  /\ (net_calls (trace (snd run)) <= net_calls (trace st) + n + 1)%nat
  /\ (exists k : nat,
        (k <= pred n)%nat
        /\ sleeps (trace (snd run))
           = sleeps (trace st) ++ ((fun a => 2 ^ a) <$> seqZ 0 (Z.of_nat k)))
  /\ ((forall i p c, 0 <= latency (net i p c) <= timeout self) ->
      1 <= retry_attempts self ->
      clock (snd run) <= clock st + (retry_attempts self + 1) * timeout self
                         + (2 ^ (retry_attempts self - 1) - 1)).
Proof.
  intros n run.
  pose proof (call_with_retry_run net self prompt config st) as Hcourse.
  split; [exact Hcourse |].
  destruct Hcourse as (k & tail & Htr & Hk & _ & Hend). fold run in Htr, Hend.
  split_and!.
  - rewrite Htr, !net_calls_app, net_calls_failed_rounds.
    destruct Hend as [(-> & _) | [(-> & Hlt & _) | (-> & Hn & _)]];
      unfold net_calls; simpl; lia.
  - exists k. split; [done |].
    rewrite Htr, !sleeps_app, sleeps_failed_rounds.
    destruct Hend as [(-> & _) | [(-> & _) | (-> & _)]]; simpl; by rewrite app_nil_r.
  - intros Hlat Hn. unfold run. rewrite call_with_retry_unfold by done.
    pose proof (retry_loop_clock net self prompt config
                  (Z.to_nat (retry_attempts self - 1)) 0 st Hlat ltac:(lia) ltac:(lia)) as H.
    rewrite Z2Nat.id in H by lia.
    replace (0 + (retry_attempts self - 1)) with (retry_attempts self - 1) in H by lia.
    change (2 ^ 0) with 1 in H. lia.
Qed.

Lemma call_with_retry_bounded_witness :
  let st' := snd (call_with_retry net_down LLMClient.init_default cv_prompt cv_config
                    (initial_state 0)) in
  (net_calls (trace st') <= 4)%nat /\ clock st' <= 243.
Proof.
  destruct (call_with_retry_bounded net_down LLMClient.init_default cv_prompt cv_config
              (initial_state 0)) as (_ & Hcalls & _ & Hclock).
  split; [exact Hcalls |].
  apply Hclock; [intros i p c; simpl; lia | simpl; lia].
Defined.

(** Against C4 as stated: with the service down, the default client makes
    four network calls, not three, and is busy for 243 seconds, more than
    3 times 60. *)
Lemma four_calls_when_down :
  let st' := snd (call_with_retry net_down LLMClient.init_default cv_prompt cv_config
                    (initial_state 0)) in
  net_calls (trace st') = 4%nat
  /\ sleeps (trace st') = [1; 2]
  /\ clock st' - clock (initial_state 0) = 243
  /\ timeout LLMClient.init_default * retry_attempts LLMClient.init_default = 180.
Proof. split_and!; reflexivity. Qed.




(** C6, as the code has it.  When a primary call fails with anything but
    a timeout or connection error, in whichever pass of the loop, the run
    ends there: that network call is its last event, there is no sleep,
    no retry and no fallback-model call, the breaker records neither a
    failure nor a success, and the same exception goes to the caller. *)
Theorem fatal_error_ends_the_run (net : Network) (self : LLMClient.t)
    (prompt : string) (config : Config) (st : St) (cb : CircuitBreaker.t)
    (e : Exception) (secs : Z) :
  is_open (clock st) (breaker st) = (Returned false, cb) ->
  net (net_calls (trace st)) prompt config = mkReply (Raised e) secs ->
  caught_by_retry e = false ->
  (forall remaining attempt,
      retry_loop net self prompt config (S remaining) attempt st =
        (Raised e, mkSt (clock st + secs) (trace st ++ [NetCall prompt config]) cb))
  /\ (1 <= retry_attempts self ->
      call_with_retry net self prompt config st =
        (Raised e, mkSt (clock st + secs) (trace st ++ [NetCall prompt config]) cb))
  /\ failure_count cb = failure_count (breaker st)
  /\ last_failure_time cb = last_failure_time (breaker st).
Proof.
  intros Hio Hnet Hc. split_and!.
  - intros remaining attempt. by eapply retry_loop_fatal.
  - intros Hn. rewrite call_with_retry_unfold by done. by eapply retry_loop_fatal.
  - pose proof (is_open_keeps_config (clock st) (breaker st)) as (_ & _ & H & _).
    by rewrite Hio in H.
  - pose proof (is_open_keeps_config (clock st) (breaker st)) as (_ & _ & _ & H).
    by rewrite Hio in H.
Qed.

Lemma fatal_error_ends_the_run_witness :
  call_with_retry net_bad_key LLMClient.init_default cv_prompt cv_config (initial_state 0)
    = (Raised (OtherError "AuthenticationError" "invalid x-api-key"),
       mkSt 1 [NetCall cv_prompt cv_config] CircuitBreaker.init_default).
Proof.
  destruct (fatal_error_ends_the_run net_bad_key LLMClient.init_default cv_prompt
              cv_config (initial_state 0) CircuitBreaker.init_default
              (OtherError "AuthenticationError" "invalid x-api-key") 1)
    as (_ & Hcall & _); [reflexivity | reflexivity | reflexivity |].
  apply Hcall. simpl; lia.
Defined.

(** Against C6 as stated: a rejected API key reaches the caller as the
    raised exception, not as a returned result. *)
Lemma bad_key_raises_to_caller :
  fst (call_with_retry net_bad_key LLMClient.init_default cv_prompt cv_config
         (initial_state 0))
    = Raised (OtherError "AuthenticationError" "invalid x-api-key")
  /\ forall text,
       fst (call_with_retry net_bad_key LLMClient.init_default cv_prompt cv_config
              (initial_state 0)) <> Returned text.
Proof. split; [reflexivity | intros text H; vm_compute in H; discriminate]. Qed.

End Invoker.

(** ** Properties of the analytics queue *)

Module Analytics.

Import AnalyticsService.

Lemma flush_offline_or_empty thr self :
  isOnline self = false \/ eventQueue self = [] ->
  flushEventQueue thr self = self.
Proof.
  unfold flushEventQueue. intros [-> | ->]; [done |].
  simpl. by rewrite orb_true_r.
Qed.

Lemma flush_online_nonempty thr self :
  isOnline self = true -> eventQueue self <> [] ->
  flushEventQueue thr self =
    mk (sessionId self) (userId self) [] (isOnline self)
       (batches self ++ [eventQueue self]).
Proof.
  unfold flushEventQueue. intros -> Hne. simpl.
  rewrite bool_decide_eq_false_2; [done |].
  by destruct (eventQueue self).
Qed.

(** A flush moves events from the queue to a batch and loses none. *)
Lemma flush_conserves thr self :
  concat (batches (flushEventQueue thr self)) ++ eventQueue (flushEventQueue thr self)
    = concat (batches self) ++ eventQueue self.
Proof.
  destruct (isOnline self) eqn:Hon; [| by rewrite flush_offline_or_empty by auto].
  destruct (decide (eventQueue self = [])) as [Hq | Hq];
    [by rewrite flush_offline_or_empty by auto |].
  rewrite flush_online_nonempty by done. simpl.
  rewrite concat_app. simpl. by rewrite !app_nil_r.
Qed.

Lemma step_conserves a self :
  concat (batches (step a self)) ++ eventQueue (step a self)
    = concat (batches self) ++ eventQueue self ++ tracked [a] self.
Proof.
  destruct a as [thr env ty act lbl el meta | thr | thr | | uid]; simpl;
    rewrite ?app_nil_r.
  - unfold trackEvent. destruct (queue_full _); [rewrite flush_conserves |]; done.
  - apply flush_conserves.
  - unfold on_online. by rewrite flush_conserves.
  - done.
  - done.
Qed.

Lemma run_conserves actions self :
  concat (batches (run actions self)) ++ eventQueue (run actions self)
    = concat (batches self) ++ eventQueue self ++ tracked actions self.
Proof.
  revert self. induction actions as [| a actions IH]; intros self.
  - simpl. by rewrite app_nil_r.
  - change (run (a :: actions) self) with (run actions (step a self)).
    rewrite IH, app_assoc, step_conserves.
    assert (tracked (a :: actions) self
            = tracked [a] self ++ tracked actions (step a self)) as ->
      by (simpl; by rewrite app_nil_r).
    by rewrite <- !app_assoc.
Qed.

(** C10.  [flushEventQueue] returns the service unchanged when it is
    offline or the queue is empty; otherwise it empties the queue and
    hands the whole queue over as one batch, whether or not delivery
    throws.  [trackEvent] appends exactly one event and then flushes
    exactly when the service is online and the queue holds at least five
    events.  Over any sequence of actions the batches handed over, in
    order, followed by the queue are the events tracked, in order: no
    event is handed over twice and none returns to the queue; so when the
    events are pairwise different, none occurs twice among the batches and
    the queue. *)
Theorem queue_flushes_each_event_once :
  (forall thr self,
      isOnline self = false \/ eventQueue self = [] ->
      flushEventQueue thr self = self)
  /\ (forall thr self,
        isOnline self = true -> eventQueue self <> [] ->
        eventQueue (flushEventQueue thr self) = []
        /\ batches (flushEventQueue thr self) = batches self ++ [eventQueue self]
        /\ flushEventQueue thr self = flushEventQueue (negb thr) self)
  /\ (forall thr env ty act lbl el meta self,
        let ev := eventData self env ty act lbl el meta in
        trackEvent thr env ty act lbl el meta self =
          if isOnline self && bool_decide (5 <= length (eventQueue self ++ [ev]))%nat
          then flushEventQueue thr (push ev self)
          else push ev self)
  /\ (forall ev self,
        eventQueue (push ev self) = eventQueue self ++ [ev]
        /\ length (eventQueue (push ev self)) = S (length (eventQueue self))
        /\ batches (push ev self) = batches self)
  /\ (forall actions self,
        concat (batches (run actions self)) ++ eventQueue (run actions self)
          = concat (batches self) ++ eventQueue self ++ tracked actions self)
  /\ (forall actions self,
        NoDup (concat (batches self) ++ eventQueue self ++ tracked actions self) ->
        NoDup (concat (batches (run actions self)) ++ eventQueue (run actions self))).
Proof.
  split_and!.
  - apply flush_offline_or_empty.
  - intros thr self Hon Hne.
    rewrite !flush_online_nonempty by done. done.
  - done.
  - intros ev self. simpl. rewrite length_app. simpl. split_and!; [done | lia | done].
  - apply run_conserves.
  - intros actions self Hnodup. by rewrite run_conserves.
Qed.

(** A session that starts online and tracks four clicks after the page
    view: the fifth event triggers the flush, which hands over all five. *)
Lemma queue_flushes_each_event_once_witness :
  let fresh := constructor "session_1" true Scenarios.home in
  let s := run (replicate 4 Scenarios.click) fresh in
  flushEventQueue false (on_offline fresh) = on_offline fresh
  /\ eventQueue (flushEventQueue true fresh) = []
  /\ concat (batches s) ++ eventQueue s
     = eventQueue fresh ++ tracked (replicate 4 Scenarios.click) fresh
  /\ length (eventQueue s) = 0%nat
  /\ length <$> batches s = [5%nat].
Proof.
  destruct queue_flushes_each_event_once as (Hidle & Hflush & _ & _ & Hrun & _).
  split_and!.
  - apply Hidle. left. reflexivity.
  - apply Hflush; [reflexivity | discriminate].
  - apply (Hrun (replicate 4 Scenarios.click)
             (constructor "session_1" true Scenarios.home)).
  - reflexivity.
  - reflexivity.
Defined.

End Analytics.

(** ** Properties of response processing *)

Module Fences.

Import ResponseProcessing.

Lemma chars_unchars l : chars (unchars l) = l.
Proof. apply String.list_ascii_of_string_of_list_ascii. Qed.

Lemma trim_left_keeps c l : is_ws c = false -> trim_left (c :: l) = c :: l.
Proof. intros H. simpl. by rewrite H. Qed.

Lemma trim_right_keeps c l : is_ws c = false -> trim_right (l ++ [c]) = l ++ [c].
Proof.
  intros H. unfold trim_right.
  rewrite reverse_snoc, trim_left_keeps by done.
  by rewrite reverse_cons, reverse_involutive.
Qed.

Lemma trim_right_snoc_ws c l : is_ws c = true -> trim_right (l ++ [c]) = trim_right l.
Proof. intros H. unfold trim_right. rewrite reverse_snoc. simpl. by rewrite H. Qed.

Lemma trim_cons_ws c l : is_ws c = true -> trim (c :: l) = trim l.
Proof. intros H. unfold trim. simpl. by rewrite H. Qed.

Lemma trim_snoc_ws c l : is_ws c = true -> trim (l ++ [c]) = trim l.
Proof.
  intros H. unfold trim. induction l as [| a l IH]; simpl.
  - by rewrite H.
  - destruct (is_ws a) eqn:Ha; [done |].
    by rewrite app_comm_cons, trim_right_snoc_ws.
Qed.

(** Trimming leaves alone a text that opens and closes with characters
    other than whitespace. *)
Lemma trim_solid a l b :
  is_ws a = false -> is_ws b = false -> trim (a :: l ++ [b]) = a :: l ++ [b].
Proof.
  intros Ha Hb. unfold trim. rewrite trim_left_keeps by done.
  by rewrite app_comm_cons, trim_right_keeps.
Qed.

Lemma trim_blank_prefix lead l : blank lead -> trim (lead ++ l) = trim l.
Proof.
  induction 1 as [| c lead Hc _ IH]; [done |].
  by rewrite <- app_comm_cons, trim_cons_ws.
Qed.

Lemma trim_blank_suffix trail l : blank trail -> trim (l ++ trail) = trim l.
Proof.
  induction trail as [| c trail IH] using rev_ind; intros Hb.
  - by rewrite app_nil_r.
  - apply Forall_app in Hb as [Hb Hc%Forall_inv].
    rewrite app_assoc, trim_snoc_ws by done. by apply IH.
Qed.

(** What is left of a wrapped text is the trimmed inner text. *)
Lemma strip_wrapped lead trail l :
  blank lead -> blank trail ->
  strip_code_fences (fence ++ lang_tag ++ lead ++ l ++ trail ++ fence) = trim l.
Proof.
  intros Hlead Htrail. unfold strip_code_fences.
  set (body := lead ++ l ++ trail).
  set (mid := lang_tag ++ body).
  assert (Hwhole : fence ++ lang_tag ++ lead ++ l ++ trail ++ fence
                   = fence ++ mid ++ fence).
  { unfold mid, body. by rewrite <- !app_assoc. }
  rewrite Hwhole.
  assert (Htrim : trim (fence ++ mid ++ fence) = fence ++ mid ++ fence).
  { set (tick := ascii_of_nat 96).
    assert (fence ++ mid ++ fence
            = tick :: ([tick; tick] ++ mid ++ [tick; tick]) ++ [tick]) as ->
      by (by rewrite <- !app_assoc).
    by apply trim_solid. }
  rewrite Htrim.
  assert (Hfenced : fenced (fence ++ mid ++ fence) = true).
  { unfold fenced, starts_with, ends_with.
    rewrite !bool_decide_eq_true_2; [done | | |].
    - rewrite !length_app. simpl. lia.
    - exists (fence ++ mid). by rewrite <- app_assoc.
    - by exists (mid ++ fence). }
  rewrite Hfenced.
  assert (Hinner : take (length (fence ++ mid ++ fence) - 6)
                     (drop 3 (fence ++ mid ++ fence)) = mid).
  { change (drop 3 (fence ++ mid ++ fence)) with (mid ++ fence).
    replace (length (fence ++ mid ++ fence) - 6)%nat with (length mid)
      by (rewrite !length_app; simpl; lia).
    apply take_app_length. }
  rewrite Hinner.
  assert (Htag : starts_with lang_tag mid = true).
  { unfold starts_with. apply bool_decide_eq_true_2. by eexists. }
  rewrite Htag.
  change (drop 4 mid) with body. unfold body.
  by rewrite trim_blank_prefix, trim_blank_suffix.
Qed.

Lemma strip_bare l : fenced (trim l) = false -> strip_code_fences l = trim l.
Proof. unfold strip_code_fences. by intros ->. Qed.

Lemma trim_left_snoc_solid c l :
  is_ws c = false -> trim_left (l ++ [c]) = trim_left l ++ [c].
Proof.
  intros H. induction l as [| a l IH]; simpl; [by rewrite H |].
  by destruct (is_ws a).
Qed.

Lemma trim_right_cons_solid c l :
  is_ws c = false -> trim_right (c :: l) = c :: trim_right l.
Proof.
  intros H. unfold trim_right.
  by rewrite reverse_cons, trim_left_snoc_solid, reverse_snoc.
Qed.

Lemma value_start_solid c :
  value_start c = true -> is_ws c = false /\ c <> ascii_of_nat 96.
Proof.
  unfold value_start, is_ws. intros H%bool_decide_eq_true. split.
  - apply bool_decide_eq_false. lia.
  - intros ->. vm_compute in H. lia.
Qed.

(** A text that starts like a JSON text is not fenced. *)
Lemma json_start_not_fenced l :
  starts_like_json l = true -> fenced (trim l) = false.
Proof.
  unfold starts_like_json, trim.
  destruct (trim_left l) as [| c r]; [done |].
  intros [Hws Htick]%value_start_solid.
  rewrite trim_right_cons_solid by done.
  unfold fenced, starts_with.
  rewrite (bool_decide_eq_false_2 (fence `prefix_of` _)); [done |].
  intros [k Hk]. injection Hk as Hc _. by apply Htick.
Qed.

(** C8.  For every text [j] that is not itself fenced, as no JSON text is
    ([json_start_not_fenced]), for every blank space put around it inside
    the json fences, for every strict parser and every list of repair
    heuristics: processing [j] wrapped in json fences gives exactly what
    processing [j] gives. *)
Theorem fenced_response_parses_alike (Json : Type)
    (json_loads : list ascii -> option Json)
    (repairs : list (list ascii -> list ascii))
    (lead trail : list ascii) (j : string) :
  blank lead -> blank trail ->
  fenced (trim (chars j)) = false ->
  process_response Json json_loads repairs (wrap_in_fences lead trail j)
    = process_response Json json_loads repairs j.
Proof.
  intros Hlead Htrail Hbare. unfold process_response, wrap_in_fences.
  by rewrite chars_unchars, strip_wrapped, strip_bare.
Qed.

(** An object with surrounding blanks, each fence on a line of its own,
    parsed by a parser that knows nothing but the empty object: both forms
    give the same value. *)
Lemma fenced_response_parses_alike_witness :
  let loads := fun l => if bool_decide (l = chars "{}") then Some l else None in
  fenced (trim (chars " {} ")) = false
  /\ process_response _ loads [] (wrap_in_fences [newline] [newline] " {} ")
     = Some (chars "{}")
  /\ process_response _ loads [] " {} " = Some (chars "{}").
Proof.
  intros loads.
  assert (blank [newline]) as Hnl by (by apply Forall_singleton).
  pose proof (fenced_response_parses_alike _ loads [] [newline] [newline] " {} "
                Hnl Hnl eq_refl) as H.
  split; [reflexivity |]. split; [| reflexivity].
  rewrite H. reflexivity.
Defined.

End Fences.

(** ** Properties of validation *)

Module Completeness.

Import Validation.

Section WithSchema.

Variable kind_of : string -> Kind.

Lemma empty_default_is_empty k : is_empty (empty_default k) = true.
Proof. by destruct k. Qed.

Lemma fill_lookup (parsed : gmap string Value) (missing : list string) (f : string) :
  foldr (fun f acc => <[f := empty_default (kind_of f)]> acc) parsed missing !! f
    = if bool_decide (f ∈ missing) then Some (empty_default (kind_of f))
      else parsed !! f.
Proof.
  induction missing as [| a missing IH]; simpl.
  - done.
  - rewrite lookup_insert. destruct (decide (a = f)) as [-> | Hne].
    + rewrite bool_decide_eq_true_2; [done |]. apply elem_of_cons. by left.
    + rewrite IH.
      rewrite (bool_decide_ext (f ∈ a :: missing) (f ∈ missing)); [done |].
      rewrite elem_of_cons. split; [intros [Heq | Hin]; [congruence | done] | by right].
Qed.

Lemma present_plus_missing (parsed : gmap string Value) (required : list string) :
  (length (present_fields parsed required) + length (missing_fields parsed required)
   = length required)%nat.
Proof.
  unfold present_fields, missing_fields.
  induction required as [| f required IH]; [done |].
  rewrite !filter_cons. destruct (parsed !! f) eqn:Hf.
  - rewrite decide_True by done. rewrite decide_False by done. simpl. lia.
  - rewrite decide_False by (by intros [? ?]). rewrite decide_True by done.
    simpl. lia.
Qed.

(** C7.  For every parsed object, every list of notes so far and every
    required-field list: a required field the response lacks is in the
    result with the empty default of its kind, and a note naming it is
    in [parsing_notes]; fields the response has keep their values and
    earlier notes are kept; and the completeness score is the number of
    required fields present over the number expected, which lies
    between 0 and 1 when at least one field is expected. *)
Theorem missing_fields_get_defaults (parsed : gmap string Value)
    (notes : list string) (required : list string) :
  let v := validate kind_of parsed notes required in
  let n_present := length (filter (fun f => is_Some (parsed !! f)) required) in
  let n_expected := length required in
  (forall f, f ∈ required -> parsed !! f = None ->
     fields v !! f = Some (empty_default (kind_of f))
     /\ is_empty (empty_default (kind_of f)) = true
     /\ missing_note f ∈ parsing_notes v)
  /\ (forall f x, parsed !! f = Some x -> fields v !! f = Some x)
  /\ notes `prefix_of` parsing_notes v
  /\ (n_present + length (missing_fields parsed required) = n_expected)%nat
  /\ (completeness_score v
       == inject_Z (Z.of_nat n_present) / inject_Z (Z.of_nat n_expected))%Q
  /\ (required <> [] ->
      (0 <= completeness_score v <= 1)%Q
      /\ (completeness_score v * inject_Z (Z.of_nat n_expected)
           == inject_Z (Z.of_nat n_present))%Q).
Proof.
  intros v n_present n_expected. split_and!.
  - intros f Hreq Hnone.
    assert (f ∈ missing_fields parsed required) as Hmiss
      by (by apply list_elem_of_filter).
    split_and!.
    + unfold v, validate, fill_defaults. simpl.
      rewrite fill_lookup. by rewrite bool_decide_eq_true_2.
    + apply empty_default_is_empty.
    + unfold v, validate. simpl. apply elem_of_app. right.
      by apply list_elem_of_fmap_2.
  - intros f x Hf. unfold v, validate, fill_defaults. simpl.
    rewrite fill_lookup. rewrite bool_decide_eq_false_2; [done |].
    intros [Hnone _]%list_elem_of_filter. congruence.
  - by eexists.
  - apply present_plus_missing.
  - done.
  - intros Hne.
    assert (0 < n_expected)%nat as Hpos
      by (unfold n_expected; destruct required; [done | simpl; lia]).
    assert (n_present <= n_expected)%nat as Hle by apply length_filter.
    assert (0 < inject_Z (Z.of_nat n_expected))%Q as HposQ.
    { change 0%Q with (inject_Z 0). rewrite <- Zlt_Qlt. lia. }
    change (completeness_score v)
      with (inject_Z (Z.of_nat n_present) / inject_Z (Z.of_nat n_expected))%Q.
    split_and!.
    + apply Qle_shift_div_l; [done |]. rewrite Qmult_0_l.
      change 0%Q with (inject_Z 0). rewrite <- Zle_Qle. lia.
    + apply Qle_shift_div_r; [done |]. rewrite Qmult_1_l.
      rewrite <- Zle_Qle. lia.
    + field. intros Hz. rewrite Hz in HposQ. by apply Qlt_irrefl in HposQ.
Qed.

End WithSchema.

(** A response with a name and skills but no email, validated against
    three required fields: the email is filled in empty, the note is
    there, and the score is two thirds. *)
Lemma missing_fields_get_defaults_witness :
  let kind_of := fun f => if bool_decide (f = "skills") then KList else KStr in
  let parsed : gmap string Value :=
    <["name" := VStr "Ada Lovelace"]> {["skills" := VList ["analysis"; "engines"]]} in
  let v := validate kind_of parsed [] ["name"; "email"; "skills"] in
  fields v !! "email" = Some (VStr "")
  /\ missing_note "email" ∈ parsing_notes v
  /\ (completeness_score v == 2 # 3)%Q
  /\ (0 <= completeness_score v <= 1)%Q.
Proof.
  intros kind_of parsed v.
  destruct (missing_fields_get_defaults kind_of parsed [] ["name"; "email"; "skills"])
    as (Hmiss & _ & _ & _ & _ & Hrange).
  destruct (Hmiss "email") as (Hfield & _ & Hnote);
    [apply elem_of_cons; right; apply elem_of_cons; by left | reflexivity |].
  destruct Hrange as [Hbounds _]; [discriminate |].
  split; [exact Hfield |]. split; [exact Hnote |]. split; [reflexivity | exact Hbounds].
Defined.

End Completeness.

(** ** Properties of file validation *)

Module FileChecks.

Import FileValidator.

Lemma startswith_spec content sig :
  startswith content sig = true <-> exists rest, content = sig ++ rest.
Proof. unfold startswith. by rewrite bool_decide_eq_true. Qed.

(** [contains] finds exactly the contiguous occurrences. *)
Lemma contains_spec pattern content :
  contains pattern content = true
  <-> exists before after, content = before ++ pattern ++ after.
Proof.
  induction content as [| b content IH]; simpl.
  - rewrite orb_false_r, startswith_spec. split.
    + intros [rest H]. exists [], rest. done.
    + intros (before & after & H). symmetry in H.
      apply app_eq_nil in H as [-> H]. apply app_eq_nil in H as [-> ->].
      by exists [].
  - rewrite orb_true_iff, startswith_spec, IH. split.
    + intros [[rest H] | (before & after & H)].
      * exists [], rest. done.
      * exists (b :: before), after. by rewrite H.
    + intros (before & after & H). destruct before as [| b' before].
      * left. by exists after.
      * right. injection H as _ H. by exists before, after.
Qed.

Lemma contains_embedded pattern before content after :
  contains pattern content = true ->
  contains pattern (before ++ content ++ after) = true.
Proof.
  rewrite !contains_spec. intros (b & a & ->).
  exists (before ++ b), (a ++ after). by rewrite <- !app_assoc.
Qed.

Lemma lower_byte_not_capital b :
  ~ (65 <= Byte.to_N (lower_byte b) <= 90)%N.
Proof. destruct b; vm_compute; intros [H1 H2]; congruence. Qed.

Lemma lower_byte_idemp b : lower_byte (lower_byte b) = lower_byte b.
Proof. by destruct b. Qed.

Lemma lower_idemp content : lower (lower content) = lower content.
Proof.
  unfold lower. rewrite <- list_fmap_compose. apply list_fmap_ext.
  intros _ b _. apply lower_byte_idemp.
Qed.

(** X1.  [scan_for_malicious_content]: a content that is flagged stays
    flagged when it is embedded anywhere in a larger file and when any of
    its ASCII letters change case. *)
Theorem scan_flags_embedded_any_case (content variant before after : list Byte.byte) :
  scan_for_malicious_content content = true ->
  lower variant = lower content ->
  scan_for_malicious_content (before ++ variant ++ after) = true.
Proof.
  unfold scan_for_malicious_content. intros Hscan Hcase.
  apply existsb_exists in Hscan as (pattern & Hin & Hfound).
  apply existsb_exists. exists pattern. split; [done |].
  unfold lower in *. rewrite !fmap_app, Hcase.
  by apply contains_embedded.
Qed.

Lemma scan_flags_embedded_any_case_witness :
  scan_for_malicious_content
    (bytes_of "%PDF-1.4 " ++ bytes_of "<SCRIPT>alert(1)</SCRIPT>" ++ bytes_of " %%EOF")
    = true.
Proof.
  apply (scan_flags_embedded_any_case (bytes_of "<script>alert(1)</script>"));
    reflexivity.
Defined.

(** X2.  [scan_for_malicious_content]: the pattern [ActiveX] never
    matches, because it has capitals and is looked for in the lower-cased
    content; the scan gives what the scan for the six other patterns
    gives. *)
Theorem activex_pattern_never_matches (content : list Byte.byte) :
  contains (bytes_of "ActiveX") (lower content) = false
  /\ scan_for_malicious_content content
     = existsb (fun pattern => contains pattern (lower content))
         [bytes_of "<script"; bytes_of "javascript:"; bytes_of "vbscript:";
          bytes_of "<?php"; bytes_of "exec("; bytes_of "eval("].
Proof.
  assert (contains (bytes_of "ActiveX") (lower content) = false) as Hdead.
  { apply not_true_is_false. intros (before & after & H)%contains_spec.
    assert (Byte.x41 ∈ lower content) as Hin.
    { rewrite H. apply elem_of_app. right. apply elem_of_app. left.
      apply elem_of_cons. by left. }
    apply list_elem_of_fmap in Hin as (b & Hb & _).
    apply (lower_byte_not_capital b). rewrite <- Hb. vm_compute. split; congruence. }
  split; [done |].
  unfold scan_for_malicious_content, suspicious_patterns.
  cbn [existsb]. rewrite Hdead. by rewrite !orb_false_r.
Qed.

Lemma integrity_fails_only_with_signature content file_ext :
  verify_file_integrity content file_ext = false ->
  file_ext ∈ [".pdf"; ".docx"; ".doc"]
  /\ exists sigs, signatures_of file_ext = Some sigs
       /\ Forall (fun sig => ~ sig `prefix_of` content) sigs.
Proof.
  unfold verify_file_integrity, signatures_of, file_signatures. simpl.
  repeat case_bool_decide; simpl; try done; subst; intros Hv.
  all: split; [set_solver |]; eexists; split; [done |].
  all: apply Forall_singleton; intros Hp.
  all: rewrite orb_false_r in Hv; apply bool_decide_eq_false in Hv; done.
Qed.

Section WithPathlib.

Variable suffix_lower : string -> string.

(** X3.  [validate_file]: [is_valid] is true exactly when [issues] is
    empty, which is exactly when the four checks pass (allowed extension,
    at most 10 MiB, nothing suspicious, header fitting the extension);
    there are at most four issues and [file_info] stays empty. *)
Theorem valid_iff_no_issues (file_content : list Byte.byte) (filename : string) :
  let r := validate_file suffix_lower file_content filename in
  let file_ext := suffix_lower filename in
  (is_valid r = true <-> issues r = [])
  /\ (is_valid r = true <->
       file_ext ∈ ALLOWED_EXTENSIONS
       /\ Z.of_nat (length file_content) <= MAX_FILE_SIZE
       /\ scan_for_malicious_content file_content = false
       /\ verify_file_integrity file_content file_ext = true)
  /\ (length (issues r) <= 4)%nat
  /\ file_info r = [].
Proof.
  intros r file_ext. subst r. unfold validate_file. fold file_ext.
  destruct (Z.gtb_spec (Z.of_nat (length file_content)) MAX_FILE_SIZE) as [Hbig | Hok];
    case_bool_decide;
    destruct (scan_for_malicious_content file_content);
    destruct (verify_file_integrity file_content file_ext);
    simpl; split_and!; try lia; try done;
    try (split; [done | intros (? & ? & ? & ?); try done; lia]).
Qed.

(** X4.  [validate_file] with [verify_file_integrity]: the issue
    "File appears to be corrupted" is reported exactly for a file whose
    extension is [.pdf], [.docx] or [.doc] and whose content does not start
    with the signature of that type; a [.txt] file or a file of an
    unsupported type is never reported as corrupted. *)
Theorem corrupted_means_wrong_header (file_content : list Byte.byte) (filename : string) :
  let r := validate_file suffix_lower file_content filename in
  let file_ext := suffix_lower filename in
  "File appears to be corrupted" ∈ issues r
  <-> file_ext ∈ [".pdf"; ".docx"; ".doc"]
      /\ exists sigs, signatures_of file_ext = Some sigs
           /\ Forall (fun sig => ~ sig `prefix_of` file_content) sigs.
Proof.
  intros r file_ext.
  assert (Hmem : "File appears to be corrupted" ∈ issues r
                 <-> verify_file_integrity file_content file_ext = false).
  { subst r. unfold validate_file. fold file_ext.
    destruct (Z.of_nat (length file_content) >? MAX_FILE_SIZE);
      case_bool_decide;
      destruct (scan_for_malicious_content file_content);
      destruct (verify_file_integrity file_content file_ext);
      simpl; split; try done; intros Hin;
      repeat (apply elem_of_cons in Hin as [Hin | Hin]; [by inversion Hin |]);
      try (by apply elem_of_nil in Hin).
    all: apply list_elem_of_In; simpl; auto 10. }
  rewrite Hmem. split; [apply integrity_fails_only_with_signature |].
  intros (Hext & sigs & Hsigs & Hnone).
  unfold verify_file_integrity. rewrite Hsigs.
  unfold signatures_of, file_signatures in Hsigs. simpl in Hsigs.
  repeat (apply elem_of_cons in Hext as [-> | Hext]); [| | | by apply elem_of_nil in Hext].
  all: simpl in Hsigs; injection Hsigs as <-; simpl.
  all: apply Forall_inv in Hnone.
  all: rewrite orb_false_r; by apply bool_decide_eq_false.
Qed.

End WithPathlib.

Lemma corrupted_means_wrong_header_witness :
  "File appears to be corrupted"
    ∈ issues (validate_file (fun _ => ".pdf") [] "empty.pdf").
Proof.
  apply (corrupted_means_wrong_header (fun _ => ".pdf") [] "empty.pdf").
  split; [set_solver |]. eexists. split; [reflexivity |].
  apply Forall_singleton. intros [rest H]. discriminate.
Defined.

End FileChecks.

(** ** Properties of token accounting *)

Module TokenAccounts.

Import TokenManager.

Section WithFloat.

Variable float : Type.
Variable float_zero : float.
Variable float_add : float -> float -> float.
Variable compress_prompt : list N -> Z -> list N.

Lemma track_usage_same agent_id tokens_used cost_
    (token_budget : gmap string (Usage float)) :
  track_usage float float_zero float_add agent_id tokens_used cost_ token_budget
    !! agent_id
    = Some (mkUsage float
              (tokens float (opening float float_zero agent_id token_budget)
               + tokens_used)
              (float_add (cost float (opening float float_zero agent_id token_budget))
                 cost_)).
Proof.
  unfold track_usage, opening.
  destruct (token_budget !! agent_id) as [u |] eqn:Hu; simpl.
  - rewrite !lookup_alter_eq, Hu. done.
  - rewrite !lookup_alter_eq, lookup_insert_eq. done.
Qed.

Lemma track_usage_other agent_id other tokens_used cost_
    (token_budget : gmap string (Usage float)) :
  agent_id <> other ->
  track_usage float float_zero float_add agent_id tokens_used cost_ token_budget
    !! other = token_budget !! other.
Proof.
  intros Hne. unfold track_usage.
  rewrite !lookup_alter_ne by done.
  destruct (token_budget !! agent_id); [done |]. by rewrite lookup_insert_ne.
Qed.

Lemma tokens_total_app (calls1 calls2 : list (string * Z * float)) :
  tokens_total float (calls1 ++ calls2)
    = tokens_total float calls1 + tokens_total float calls2.
Proof.
  unfold tokens_total. induction calls1 as [| c calls1 IH]; simpl; [done |].
  rewrite IH. lia.
Qed.

(** X5.  After any sequence of [track_usage] calls, an agent none of the
    calls names has the entry it had, or none; any other agent has its
    opening tokens plus the tokens of its own calls, and its opening cost
    with the costs of its own calls added in the order of the calls.  The
    calls of other agents change nothing for it. *)
Theorem usage_is_sum_of_own_calls (calls : list (string * Z * float))
    (token_budget : gmap string (Usage float)) (agent_id : string) :
  let own := calls_of float agent_id calls in
  let start := opening float float_zero agent_id token_budget in
  track_all float float_zero float_add calls token_budget !! agent_id
    = match own with
      | [] => token_budget !! agent_id
      | _ => Some (mkUsage float
                     (tokens float start + tokens_total float own)
                     (cost_total float float_add (cost float start) own))
      end.
Proof.
  induction calls as [| call calls IH] using rev_ind; [done |].
  unfold track_all in *. rewrite foldl_snoc.
  unfold calls_of in *. rewrite filter_app. simpl in *.
  set (budget := foldl _ token_budget calls) in *.
  set (own := filter _ calls) in *.
  destruct (decide (call.1.1 = agent_id)) as [Heq | Hne].
  - rewrite filter_cons_True by done. rewrite filter_nil.
    rewrite Heq, track_usage_same. unfold opening at 1 2. rewrite IH.
    destruct own as [| c own]; simpl.
    + unfold opening. f_equal. f_equal. lia.
    + rewrite tokens_total_app. unfold cost_total. rewrite foldl_snoc.
      f_equal. f_equal. unfold tokens_total. simpl. lia.
  - rewrite filter_cons_False by done. rewrite filter_nil, app_nil_r.
    by rewrite track_usage_other.
Qed.

(** X6.  [optimize_prompt]: a prompt of fewer than [4 * (max_tokens + 1)]
    code points is returned as it is; a longer one is handed to
    [compress_prompt]. *)
Theorem short_prompt_unchanged (prompt : list N) (max_tokens : Z) :
  (Z.of_nat (length prompt) < 4 * (max_tokens + 1) ->
   optimize_prompt compress_prompt prompt max_tokens = prompt)
  /\ (4 * (max_tokens + 1) <= Z.of_nat (length prompt) ->
      optimize_prompt compress_prompt prompt max_tokens
        = compress_prompt prompt max_tokens).
Proof.
  unfold optimize_prompt, estimate_tokens.
  destruct (Z.leb_spec (Z.of_nat (length prompt) / 4) max_tokens) as [Hle | Hgt];
    split; intros H; try done.
  - apply (Z.div_le_mono _ _ 4) in H; [| lia].
    rewrite Z.mul_comm, Z.div_mul in H by lia. lia.
  - assert (Z.of_nat (length prompt) / 4 < max_tokens + 1); [| lia].
    apply Z.div_lt_upper_bound; lia.
Qed.

End WithFloat.

(** With no token allowed, three code points pass and five do not. *)
Lemma short_prompt_unchanged_witness :
  optimize_prompt (fun prompt _ => take 4 prompt) [72; 105; 33]%N 0 = [72; 105; 33]%N
  /\ optimize_prompt (fun prompt _ => take 4 prompt) [72; 105; 33; 33; 33]%N 0
     = [72; 105; 33; 33]%N.
Proof.
  destruct (short_prompt_unchanged (fun prompt _ => take 4 prompt) [72; 105; 33]%N 0)
    as [Hshort _].
  destruct (short_prompt_unchanged (fun prompt _ => take 4 prompt)
              [72; 105; 33; 33; 33]%N 0) as [_ Hlong].
  split; [apply Hshort; simpl; lia | apply Hlong; simpl; lia].
Defined.

End TokenAccounts.

(** ** Properties of input sanitization *)

Module Sanitizing.

Import InputSanitizer.

(** What the loop over [dangerous_chars] leaves of a text. *)
Lemma removed_all text :
  foldl (fun s char => remove_char char s) text dangerous_chars
    = filter (fun c => c ∉ dangerous_chars) text.
Proof.
  unfold dangerous_chars, remove_char. simpl.
  rewrite !list_filter_filter. apply list_filter_iff. intros c.
  rewrite !elem_of_cons, elem_of_nil. tauto.
Qed.

Lemma lstrip_suffix s : exists blanks, s = blanks ++ lstrip s.
Proof.
  induction s as [| c s [blanks IH]]; [by exists [] |]. simpl.
  destruct (is_space c); [| by exists []].
  exists (c :: blanks). by rewrite IH at 1.
Qed.

Lemma rstrip_prefix s : exists blanks, s = rstrip s ++ blanks.
Proof.
  unfold rstrip. destruct (lstrip_suffix (reverse s)) as [blanks H].
  exists (reverse blanks). rewrite <- reverse_app, <- H. by rewrite reverse_involutive.
Qed.

Lemma strip_inside s : exists before after, s = before ++ strip s ++ after.
Proof.
  unfold strip. destruct (lstrip_suffix s) as [before H1].
  destruct (rstrip_prefix (lstrip s)) as [after H2].
  exists before, after. by rewrite <- H2.
Qed.

Lemma strip_elem c s : c ∈ strip s -> c ∈ s.
Proof.
  destruct (strip_inside s) as (before & after & H). intros Hin.
  rewrite H, !elem_of_app. auto.
Qed.

Lemma strip_length s : (length (strip s) <= length s)%nat.
Proof.
  destruct (strip_inside s) as (before & after & H).
  rewrite H at 2. rewrite !length_app. lia.
Qed.

Lemma lstrip_solid c s : is_space c = false -> lstrip (c :: s) = c :: s.
Proof. intros H. simpl. by rewrite H. Qed.

Lemma lstrip_app_solid x c y :
  is_space c = false -> lstrip (x ++ c :: y) = lstrip x ++ c :: y.
Proof.
  intros H. induction x as [| a x IH]; simpl; [by rewrite H |].
  by destruct (is_space a).
Qed.

Lemma rstrip_snoc_solid x c : is_space c = false -> rstrip (x ++ [c]) = x ++ [c].
Proof.
  intros H. unfold rstrip. rewrite reverse_snoc, lstrip_solid by done.
  by rewrite reverse_cons, reverse_involutive.
Qed.

Lemma rstrip_cons_solid c x : is_space c = false -> rstrip (c :: x) = c :: rstrip x.
Proof.
  intros H. unfold rstrip.
  rewrite reverse_cons. change [c] with ([] ++ [c]).
  rewrite app_assoc, app_nil_r.
  replace (reverse x ++ [c]) with (reverse x ++ c :: []) by done.
  rewrite lstrip_app_solid by done. by rewrite reverse_snoc.
Qed.

Lemma lstrip_idemp s : lstrip (lstrip s) = lstrip s.
Proof.
  induction s as [| c s IH]; [done |]. simpl.
  destruct (is_space c) eqn:Hc; [done |]. simpl. by rewrite Hc.
Qed.

Lemma strip_idemp s : strip (strip s) = strip s.
Proof.
  unfold strip.
  assert (lstrip (rstrip (lstrip s)) = rstrip (lstrip s)) as ->.
  { destruct (lstrip_suffix s) as [blanks _].
    destruct (lstrip s) as [| c t] eqn:Hl; [done |].
    assert (is_space c = false) as Hc.
    { pose proof (lstrip_idemp s) as Hi. rewrite Hl in Hi. simpl in Hi.
      destruct (is_space c) eqn:Hc; [| done].
      pose proof (lstrip_suffix t) as [b Hb].
      apply (f_equal length) in Hi. rewrite Hb in Hi at 2.
      simpl in Hi. rewrite length_app in Hi. lia. }
    rewrite rstrip_cons_solid by done. by apply lstrip_solid. }
  unfold rstrip. by rewrite reverse_involutive, lstrip_idemp.
Qed.

Lemma mark_shape :
  truncated_mark
    = 46%N :: [46; 46; 32; 91; 116; 114; 117; 110; 99; 97; 116; 101; 100]%N ++ [93%N].
Proof. reflexivity. Qed.

Lemma mark_clean : Forall (fun c => c ∉ dangerous_chars) truncated_mark.
Proof. apply (bool_decide_unpack _). by vm_compute. Qed.

Lemma filter_all {A} (P : A -> Prop) `{!forall x, Decision (P x)} (l : list A) :
  Forall P l -> filter P l = l.
Proof.
  induction 1 as [| x l Hx _ IH]; [done |].
  by rewrite filter_cons_True, IH.
Qed.

Lemma clean_filter text :
  Forall (fun c => c ∉ dangerous_chars) (filter (fun c => c ∉ dangerous_chars) text).
Proof. apply Forall_forall. by intros c [? _]%list_elem_of_filter. Qed.

Lemma strip_marked x : strip (x ++ truncated_mark) = lstrip x ++ truncated_mark.
Proof.
  unfold strip. rewrite mark_shape.
  rewrite lstrip_app_solid by done.
  rewrite app_comm_cons, app_assoc. by apply rstrip_snoc_solid.
Qed.

(** What [sanitize_text_input] returns, by the size of the text that is left
    once the dangerous characters are gone. *)
Lemma sanitize_text_input_cases text :
  sanitize_text_input text =
    let clean := filter (fun c => c ∉ dangerous_chars) text in
    if Z.of_nat (length clean) >? max_length
    then lstrip (take (Z.to_nat max_length) clean) ++ truncated_mark
    else strip clean.
Proof.
  destruct text as [| c text]; [done |].
  unfold sanitize_text_input. rewrite removed_all. cbv zeta.
  destruct (Z.of_nat _ >? max_length); [| done]. apply strip_marked.
Qed.

(** X7.  [sanitize_text_input]: the result holds none of the six
    dangerous characters, whatever the text and whether or not it was
    truncated. *)
Theorem sanitized_text_is_clean text :
  Forall (fun c => c ∉ dangerous_chars) (sanitize_text_input text).
Proof.
  rewrite sanitize_text_input_cases. cbv zeta.
  pose proof (clean_filter text) as Hclean.
  set (clean := filter _ text) in *.
  destruct (Z.of_nat _ >? max_length).
  - apply Forall_app. split; [| apply mark_clean].
    apply Forall_forall. intros c Hc.
    destruct (lstrip_suffix (take (Z.to_nat max_length) clean)) as [blanks Hb].
    assert (c ∈ take (Z.to_nat max_length) clean) as Hin
      by (rewrite Hb, elem_of_app; auto).
    rewrite Forall_forall in Hclean. apply Hclean.
    by apply (subseteq_take (Z.to_nat max_length)).
  - apply Forall_forall. intros c Hc%strip_elem.
    rewrite Forall_forall in Hclean. by apply Hclean.
Qed.

(** X8.  [sanitize_text_input]: with more than 50000 characters left
    after the removal, the result is the first 50000 of them without their
    leading blanks, followed by the whole mark "... [truncated]": blanks
    just before the mark stay, and the mark is never stripped.  Otherwise
    the result is what is left, stripped.  So the result has at most 50015
    characters, not 50000. *)
Theorem truncation_keeps_mark text :
  let clean := filter (fun c => c ∉ dangerous_chars) text in
  sanitize_text_input text
    = (if Z.of_nat (length clean) >? max_length
       then lstrip (take (Z.to_nat max_length) clean) ++ truncated_mark
       else strip clean)
  /\ Z.of_nat (length (sanitize_text_input text)) <= max_length + 15.
Proof.
  rewrite sanitize_text_input_cases. cbv zeta.
  set (clean := filter _ text). split; [done |].
  destruct (Z.of_nat (length clean) >? max_length) eqn:Hlen.
  - destruct (lstrip_suffix (take (Z.to_nat max_length) clean)) as [blanks Hb].
    apply (f_equal length) in Hb. rewrite length_app, length_take in Hb.
    rewrite length_app. change (length truncated_mark) with 15%nat.
    unfold max_length in *. lia.
  - pose proof (strip_length clean). unfold max_length in *. lia.
Qed.

(** X9.  [sanitize_text_input]: when at most 50000 characters are left
    after the removal, sanitizing the result again changes nothing. *)
Theorem sanitize_twice text :
  Z.of_nat (length (filter (fun c => c ∉ dangerous_chars) text)) <= max_length ->
  sanitize_text_input (sanitize_text_input text) = sanitize_text_input text.
Proof.
  intros Hfit.
  rewrite (sanitize_text_input_cases (sanitize_text_input text)),
    (sanitize_text_input_cases text). cbv zeta.
  pose proof (clean_filter text) as Hclean.
  set (clean := filter _ text) in *.
  destruct (Z.of_nat (length clean) >? max_length) eqn:Hlen; [lia |].
  assert (Forall (fun c => c ∉ dangerous_chars) (strip clean)) as Hstripped.
  { rewrite Forall_forall in *. intros c Hc%strip_elem. by apply Hclean. }
  rewrite filter_all by done.
  pose proof (strip_length clean).
  destruct (Z.of_nat (length (strip clean)) >? max_length) eqn:Hlen'; [lia |].
  apply strip_idemp.
Qed.

(** A title with markup and blanks around it: the first pass removes the
    angle brackets and the outer blanks, the second changes nothing. *)
Lemma sanitize_twice_witness :
  sanitize_text_input (sanitize_text_input (codepoints " Senior <b>Engineer</b> "))
    = sanitize_text_input (codepoints " Senior <b>Engineer</b> ").
Proof. apply sanitize_twice. vm_compute. discriminate. Defined.

Lemma lstrip_solid_run n c : is_space c = false -> lstrip (replicate n c) = replicate n c.
Proof. intros H. destruct n; [done |]. by apply lstrip_solid. Qed.

Lemma blank_then_letters n :
  Z.of_nat n = max_length ->
  let text := 32%N :: replicate n 97%N in
  length (sanitize_text_input text) = (n - 1 + 15)%nat
  /\ length (sanitize_text_input (sanitize_text_input text)) = (n + 15)%nat.
Proof.
  intros Hn text.
  assert (Forall (fun c => c ∉ dangerous_chars) text) as Hclean.
  { unfold dangerous_chars.
    constructor; [| apply Forall_replicate]; rewrite !elem_of_cons, elem_of_nil; lia. }
  assert (sanitize_text_input text = replicate (n - 1) 97%N ++ truncated_mark) as Hfirst.
  { rewrite sanitize_text_input_cases. cbv zeta. rewrite filter_all by done.
    assert ((Z.of_nat (length text) >? max_length) = true) as ->.
    { unfold text. rewrite length_cons, length_replicate. apply Z.gtb_lt. lia. }
    f_equal. unfold text. destruct n as [| n]; [done |].
    rewrite <- Hn, Nat2Z.id. rewrite firstn_cons.
    rewrite take_replicate. replace (n `min` S n)%nat with n by lia.
    replace (S n - 1)%nat with n by lia.
    change (lstrip (32%N :: replicate n 97%N)) with (lstrip (replicate n 97%N)).
    by apply lstrip_solid_run. }
  split.
  - rewrite Hfirst, length_app, length_replicate. done.
  - rewrite sanitize_text_input_cases, Hfirst. cbv zeta.
    rewrite filter_all.
    2: { apply Forall_app. split; [| apply mark_clean].
         apply Forall_replicate. unfold dangerous_chars.
         rewrite !elem_of_cons, elem_of_nil. lia. }
    assert ((Z.of_nat (length (replicate (n - 1) 97%N ++ truncated_mark)) >? max_length)
            = true) as ->.
    { rewrite length_app, length_replicate. change (length truncated_mark) with 15%nat.
      apply Z.gtb_lt. unfold max_length in *. lia. }
    rewrite <- Hn, Nat2Z.id.
    rewrite take_app_ge by (rewrite length_replicate; lia).
    rewrite length_replicate. replace (n - (n - 1))%nat with 1%nat by (unfold max_length in *; lia).
    destruct (n - 1)%nat as [| m] eqn:Hm; [unfold max_length in *; lia |].
    rewrite replicate_S, <- app_comm_cons, lstrip_solid by done.
    rewrite app_comm_cons, <- replicate_S, !length_app, length_replicate, <- Hm.
    change (length truncated_mark) with 15%nat. simpl. unfold max_length in *. lia.
Qed.

(** X10.  [sanitize_text_input] is not idempotent: for a blank followed by
    50000 letters the first pass cuts one letter and the blank and appends
    the mark, and the second pass, finding 50014 characters, cuts into the
    mark of the first and appends another. *)
Theorem second_pass_may_differ :
  exists text, sanitize_text_input (sanitize_text_input text) <> sanitize_text_input text.
Proof.
  exists (32%N :: replicate (Z.to_nat max_length) 97%N).
  destruct (blank_then_letters (Z.to_nat max_length)) as [H1 H2]; [by apply Z2Nat.id |].
  intros Heq. rewrite Heq, H1 in H2. unfold max_length in H2. lia.
Qed.

End Sanitizing.

(** ** Properties of file-name sanitization *)

Module FilenameFacts.

Import InputSanitizer.

Section Filenames.

Variable basename : list N -> list N.
Variable splitext : list N -> list N * list N.
Variable is_word : N -> bool.

Lemma replace_special_kept s :
  Forall (fun c => kept is_word c = true) (replace_special is_word s).
Proof.
  apply Forall_fmap, Forall_forall. intros c _. simpl.
  destruct (kept is_word c) eqn:Hc; [done |].
  unfold kept. rewrite bool_decide_eq_true_2 by auto. apply orb_true_r.
Qed.

Lemma replace_special_length s : length (replace_special is_word s) = length s.
Proof. apply length_fmap. Qed.

(** X11.  [sanitize_filename]: every character of the result is a word
    character, a hyphen, an underscore or a dot, given that [splitext]
    cuts its argument in two pieces. *)
Theorem sanitized_filename_chars filename :
  (forall path, (splitext path).1 ++ (splitext path).2 = path) ->
  Forall (fun c => kept is_word c = true)
         (sanitize_filename basename splitext is_word filename).
Proof.
  intros Hjoin. unfold sanitize_filename. cbv zeta.
  pose proof (replace_special_kept (basename filename)) as Hkept.
  destruct (Z.of_nat _ >? 100); [| done].
  specialize (Hjoin (replace_special is_word (basename filename))).
  destruct (splitext _) as [name ext]. simpl in Hjoin.
  rewrite <- Hjoin in Hkept. apply Forall_app in Hkept as [Hname Hext].
  apply Forall_app. split; [by apply Forall_take | done].
Qed.

(** X12.  [sanitize_filename]: the result has at most 100 characters
    exactly when the base name has, or the extension [splitext] finds in
    the cleaned name has at most 5: only the stem is cut, to 95 characters,
    so a longer extension takes the result over 100. *)
Theorem sanitized_filename_length filename :
  (forall path, (splitext path).1 ++ (splitext path).2 = path) ->
  let safe_chars := replace_special is_word (basename filename) in
  (length (sanitize_filename basename splitext is_word filename) <= 100)%nat
  <-> (length (basename filename) <= 100)%nat
      \/ (length (splitext safe_chars).2 <= 5)%nat.
Proof.
  intros Hjoin safe_chars. unfold sanitize_filename. cbv zeta. fold safe_chars.
  pose proof (replace_special_length (basename filename)) as Hlen. fold safe_chars in Hlen.
  specialize (Hjoin safe_chars). apply (f_equal length) in Hjoin.
  rewrite length_app in Hjoin.
  destruct (Z.of_nat (length safe_chars) >? 100) eqn:Hlong; [| lia].
  destruct (splitext safe_chars) as [name ext]. simpl in *.
  rewrite length_app, length_take. lia.
Qed.

End Filenames.

(** Everything after the first character taken as the extension, and the
    lower-case letters as the word characters. *)
Lemma sanitized_filename_chars_witness :
  Forall (fun c => kept (fun c => bool_decide (97 <= c <= 122)%N) c = true)
         (sanitize_filename (fun path => path) (fun path => ([], path))
            (fun c => bool_decide (97 <= c <= 122)%N) (codepoints "my cv (1).pdf")).
Proof. apply sanitized_filename_chars. intros path. reflexivity. Defined.

(** A name of 101 letters that is all extension stays 101 characters long. *)
Lemma sanitized_filename_length_witness :
  (length (sanitize_filename (fun path => path) (fun path => ([], path))
             (fun c => bool_decide (97 <= c <= 122)%N) (replicate 101 97%N)) <= 100)%nat
  <-> (length (replicate 101 97%N) <= 100)%nat
      \/ (length (replace_special (fun c => bool_decide (97 <= c <= 122)%N)
                     (replicate 101 97%N)) <= 5)%nat.
Proof.
  apply (sanitized_filename_length (fun path => path) (fun path => ([], path))).
  intros path. reflexivity.
Defined.

End FilenameFacts.

(** ** Properties of agent tokens *)

Module TokenFacts.

Import AgentAuthManager.

Section WithLibraries.

Variable hmac_sha256_hex : string -> string -> string.
Variable dumps_sorted : gmap string TokVal -> string.
Variable encode_token : gmap string TokVal -> string.
Variable decode_token : string -> Outcome (gmap string TokVal).

Lemma token_data_unsigned agent_id agent_version now nonce :
  token_data agent_id agent_version now nonce !! "signature" = None.
Proof.
  unfold token_data. rewrite !lookup_insert_ne by done. by apply lookup_singleton_ne.
Qed.

Lemma signed_token_fields agent_id agent_version now nonce signature :
  let signed := <["signature" := TStr signature]>
                  (token_data agent_id agent_version now nonce) in
  signed !! "agent_id" = Some (TStr agent_id)
  /\ signed !! "timestamp" = Some (TNum now)
  /\ signed !! "signature" = Some (TStr signature)
  /\ delete "signature" signed = token_data agent_id agent_version now nonce.
Proof.
  cbv zeta. split_and!.
  - unfold token_data. rewrite lookup_insert_ne by done. apply lookup_insert_eq.
  - unfold token_data. rewrite !(lookup_insert_ne _ _ "timestamp") by done.
    apply lookup_insert_eq.
  - by rewrite lookup_insert_eq.
  - apply delete_insert_id, token_data_unsigned.
Qed.

(** X13.  A token from [generate_agent_token], when the decoding gives
    back the signed dict that was encoded, is judged by
    [validate_agent_token] of any manager, whether or not it issued the
    token and whatever it issued since: expired when read more than that
    manager's [session_timeout] after the token's time stamp; otherwise
    valid, with the agent's name, when the checking key gives the signature
    of the issuing key on the token's data, and of invalid signature when
    it does not. *)
Theorem issued_token_validates secret_key other_key nonce now later agent_id
    agent_version self checker at_time :
  let token_string := dumps_sorted (token_data agent_id agent_version now nonce) in
  let signed := <["signature" := TStr (hmac_sha256_hex secret_key token_string)]>
                  (token_data agent_id agent_version now nonce) in
  decode_token (encode_token signed) = Returned signed ->
  validate_agent_token hmac_sha256_hex dumps_sorted decode_token other_key at_time
    (generate_agent_token hmac_sha256_hex dumps_sorted encode_token
       secret_key nonce now later agent_id agent_version self).1 checker
  = if at_time >? now + session_timeout checker then Invalid TokenExpired
    else if bool_decide (hmac_sha256_hex other_key token_string
                         = hmac_sha256_hex secret_key token_string)
         then Valid (TStr agent_id)
         else Invalid InvalidSignature.
Proof.
  intros token_string signed Hround.
  unfold validate_agent_token, check_token, generate_agent_token. cbv zeta. simpl fst.
  fold token_string. fold signed. rewrite Hround. unfold signed.
  destruct (signed_token_fields agent_id agent_version now nonce
              (hmac_sha256_hex secret_key token_string)) as (Hid & Hts & Hsig & Hdel).
  fold token_string. unfold expiry_of. rewrite Hid, Hts, Hsig, Hdel. simpl.
  destruct (at_time >? now + session_timeout checker); [done |].
  fold token_string.
  destruct (decide (hmac_sha256_hex other_key token_string
                    = hmac_sha256_hex secret_key token_string)) as [Heq | Hne].
  - rewrite bool_decide_eq_false_2 by (rewrite Heq; auto).
    by rewrite bool_decide_eq_true_2.
  - rewrite bool_decide_eq_true_2 by congruence.
    by rewrite bool_decide_eq_false_2.
Qed.

(** X14.  [validate_agent_token]: a token whose dict has no signature is
    never valid, and expiry is looked at first: past its expiry it is
    reported as expired, before that as a validation error, the [KeyError]
    of the missing key. *)
Theorem unsigned_token_never_valid secret_key at_time token data expiry checker :
  decode_token token = Returned data ->
  data !! "signature" = None ->
  expiry_of data (session_timeout checker) = Returned expiry ->
  validate_agent_token hmac_sha256_hex dumps_sorted decode_token secret_key at_time
    token checker
  = if later_than at_time expiry then Invalid TokenExpired
    else Invalid (ValidationError (OtherError "KeyError" "'signature'")).
Proof.
  intros Hdec Hsig Hexp. unfold validate_agent_token, check_token.
  rewrite Hdec, Hexp, Hsig. by destruct (later_than at_time expiry).
Qed.

(** X15.  [validate_agent_token] answers valid exactly when the token
    decodes to a dict for which the test [time.time() > timestamp +
    session_timeout] is false and whose signature is the string the key
    gives for the rest of the dict; the agent it names is the dict's
    [agent_id], or null when the dict has none.  The tables [agent_tokens]
    and [token_expiry] play no part.  The test is false at every time when
    the time stamp is NaN or Infinity: a signed token with such a stamp
    never expires. *)
Theorem valid_token_is_signed secret_key at_time token checker agent_id :
  (validate_agent_token hmac_sha256_hex dumps_sorted decode_token secret_key at_time
     token checker = Valid agent_id
   <-> exists data expiry,
         decode_token token = Returned data
         /\ expiry_of data (session_timeout checker) = Returned expiry
         /\ later_than at_time expiry = false
         /\ data !! "signature"
              = Some (TStr (hmac_sha256_hex secret_key
                              (dumps_sorted (delete "signature" data))))
         /\ agent_id = default TNull (data !! "agent_id"))
  /\ (forall data,
        decode_token token = Returned data ->
        data !! "timestamp" = Some (TFloat NaN)
          \/ data !! "timestamp" = Some (TFloat Infinity) ->
        data !! "signature"
          = Some (TStr (hmac_sha256_hex secret_key
                          (dumps_sorted (delete "signature" data)))) ->
        forall later,
          validate_agent_token hmac_sha256_hex dumps_sorted decode_token secret_key
            later token checker
          = Valid (default TNull (data !! "agent_id"))).
Proof.
  assert (forall now agent,
            validate_agent_token hmac_sha256_hex dumps_sorted decode_token secret_key
              now token checker = Valid agent
            <-> exists data expiry,
                  decode_token token = Returned data
                  /\ expiry_of data (session_timeout checker) = Returned expiry
                  /\ later_than now expiry = false
                  /\ data !! "signature"
                       = Some (TStr (hmac_sha256_hex secret_key
                                       (dumps_sorted (delete "signature" data))))
                  /\ agent = default TNull (data !! "agent_id")) as Hexact.
  { intros now agent. unfold validate_agent_token, check_token. split.
    - destruct (decode_token token) as [data | e]; [| done].
      destruct (expiry_of data (session_timeout checker)) as [expiry | e] eqn:Hexp;
        [| done].
      destruct (later_than now expiry) eqn:Hlate; [done |].
      destruct (data !! "signature") as [signature |] eqn:Hsigned; [| done].
      case_bool_decide as Hsig; [done |].
      intros [= <-]. exists data, expiry. by rewrite <- Hsig.
    - intros (data & expiry & -> & -> & -> & -> & ->).
      by rewrite bool_decide_eq_false_2 by auto. }
  split; [apply Hexact |].
  intros data Hdec Hstamp Hsig later. apply Hexact.
  destruct Hstamp as [Hstamp | Hstamp].
  - exists data, (Flt NaN). unfold expiry_of. by rewrite Hstamp.
  - exists data, (Flt Infinity). unfold expiry_of. by rewrite Hstamp.
Qed.

End WithLibraries.

(** A stand-in for the libraries: the signature is the key followed by the
    message, a dict is serialised as its agent name, and every token decodes
    to the dict given. *)
Lemma issued_token_validates_witness :
  let hmac := fun key msg : string => key +:+ msg in
  let dumps := fun data : gmap string TokVal =>
                 match data !! "agent_id" with Some (TStr s) => s | _ => "?" end in
  let signed := <["signature" := TStr "keycv_parser"]>
                  (token_data "cv_parser" "1.0" 100 "nonce") in
  validate_agent_token hmac dumps (fun _ => Returned signed) "key" 200
    (generate_agent_token hmac dumps (fun _ => "token")
       "key" "nonce" 100 101 "cv_parser" "1.0" init).1 init
  = Valid (TStr "cv_parser").
Proof.
  cbv zeta.
  etrans; [apply (issued_token_validates _ _ (fun _ => "token")); reflexivity |].
  reflexivity.
Defined.

(** A token that decodes to a dict with an agent name only, read at the
    hour and one second later. *)
Lemma unsigned_token_never_valid_witness :
  let decode := fun _ : string =>
                  Returned ({["agent_id" := TStr "cv_parser"]} : gmap string TokVal) in
  validate_agent_token (fun key msg => key +:+ msg) (fun _ => "data") decode
    "key" 3600 "token" init
  = Invalid (ValidationError (OtherError "KeyError" "'signature'"))
  /\ validate_agent_token (fun key msg => key +:+ msg) (fun _ => "data") decode
       "key" 3601 "token" init
     = Invalid TokenExpired.
Proof.
  cbv zeta. split.
  - etrans; [apply unsigned_token_never_valid
               with (data := {["agent_id" := TStr "cv_parser"]}) (expiry := Num 3600);
             reflexivity |].
    reflexivity.
  - etrans; [apply unsigned_token_never_valid
               with (data := {["agent_id" := TStr "cv_parser"]}) (expiry := Num 3600);
             reflexivity |].
    reflexivity.
Defined.

(** Two tokens accepted without an agent name, each with the right
    signature and nothing else but a time stamp: one stamped 100 and read
    at 200, one stamped NaN and read a thousand years later. *)
Lemma valid_token_is_signed_witness :
  let stamped := fun stamp : TokVal =>
                   fun _ : string =>
                     Returned (<["signature" := TStr "keydata"]>
                                 {["timestamp" := stamp]} : gmap string TokVal) in
  validate_agent_token (fun key msg => key +:+ msg) (fun _ => "data")
    (stamped (TNum 100)) "key" 200 "token" init
  = Valid TNull
  /\ validate_agent_token (fun key msg => key +:+ msg) (fun _ => "data")
       (stamped (TFloat NaN)) "key" 31536000000 "token" init
     = Valid TNull.
Proof.
  cbv zeta. split.
  - apply valid_token_is_signed.
    eexists _, (Num 3700).
    split_and!; [reflexivity | reflexivity | reflexivity | reflexivity | reflexivity].
  - apply valid_token_is_signed.
    eexists _, (Flt NaN).
    split_and!; [reflexivity | reflexivity | reflexivity | reflexivity | reflexivity].
Defined.

End TokenFacts.

(** ** Properties of the tracking calls around the event queue *)

Module TrackingFacts.

Import AnalyticsService AnalyticsTracking.

Lemma all_events_track thr env ty act lbl el meta self :
  all_events (trackEvent thr env ty act lbl el meta self)
    = all_events self ++ [eventData self env ty act lbl el meta].
Proof.
  unfold all_events.
  pose proof (Analytics.step_conserves (Track thr env ty act lbl el meta) self) as H.
  simpl in H. by rewrite H, app_assoc.
Qed.

Lemma flush_in_bounds thr self :
  Forall (fun batch => batch <> []) (batches self) ->
  queue_in_bounds (flushEventQueue thr self).
Proof.
  intros Hb. unfold flushEventQueue.
  destruct (isOnline self) eqn:Hon; simpl.
  - case_bool_decide as Hlen; split; simpl; try done; [lia | lia |].
    apply Forall_app. split; [done |]. constructor; [| done].
    by destruct (eventQueue self).
  - split; [congruence | done].
Qed.

Lemma step_in_bounds a self : queue_in_bounds self -> queue_in_bounds (step a self).
Proof.
  intros [Hq Hb].
  destruct a as [thr env ty act lbl el meta | thr | thr | | uid]; simpl.
  - unfold trackEvent. cbv zeta.
    set (ev := eventData self env ty act lbl el meta).
    destruct (queue_full (push ev self)) eqn:Hfull; [by apply flush_in_bounds |].
    unfold queue_full in Hfull. simpl in *. split; simpl; [| done].
    intros Hon. rewrite Hon in Hfull. simpl in Hfull.
    apply bool_decide_eq_false in Hfull. lia.
  - by apply flush_in_bounds.
  - unfold on_online. by apply flush_in_bounds.
  - by split.
  - by split.
Qed.

(** X16.  From its construction on and through any sequence of tracking
    calls, flushes, connectivity changes and changes of user, a service
    that is online holds at most four events in its queue, and no batch
    that was handed over is empty. *)
Theorem queue_stays_in_bounds sessionId onLine env actions :
  queue_in_bounds (run actions (constructor sessionId onLine env)).
Proof.
  assert (queue_in_bounds (constructor sessionId onLine env)) as Hstart.
  { unfold constructor, trackPageView, trackEvent, queue_full. simpl.
    rewrite andb_false_r. split; simpl; [lia | done]. }
  revert Hstart. generalize (constructor sessionId onLine env).
  induction actions as [| a actions IH]; intros self Hself; [done |].
  apply IH. by apply step_in_bounds.
Qed.


Lemma scroll_depths_app events events' :
  scroll_depths (events ++ events') = scroll_depths events ++ scroll_depths events'.
Proof. apply omap_app. Qed.

(** X17.  [trackPerformance] adds one event, the last of all events.  Its
    [duration_ms] is the caller's metadata entry of that name when there is
    one, and the measured duration only otherwise; its [session_id] and
    [user_agent] are those of the service and the browser, whatever the
    caller's metadata says. *)
Theorem performance_metadata thr env action duration meta self :
  exists ev,
    all_events (trackPerformance thr env action duration meta self)
      = all_events self ++ [ev]
    /\ metadata ev !! "duration_ms" = Some (default duration (meta !! "duration_ms"))
    /\ metadata ev !! "session_id" = Some (JStr (sessionId self))
    /\ metadata ev !! "user_agent" = Some (JStr (userAgent env)).
Proof.
  unfold trackPerformance. eexists. split; [apply all_events_track |]. simpl.
  split_and!.
  - rewrite !lookup_insert_ne by done. rewrite lookup_union.
    rewrite lookup_singleton_eq. by destruct (meta !! "duration_ms").
  - apply lookup_insert_eq.
  - rewrite !lookup_insert_ne by done. apply lookup_insert_eq.
Qed.

Lemma step_same_but_user a self self' :
  sessionId self = sessionId self' -> eventQueue self = eventQueue self' ->
  isOnline self = isOnline self' -> batches self = batches self' ->
  sessionId (step a self) = sessionId (step a self')
  /\ eventQueue (step a self) = eventQueue (step a self')
  /\ isOnline (step a self) = isOnline (step a self')
  /\ batches (step a self) = batches (step a self').
Proof.
  destruct self as [sid uid queue online handed], self' as [sid' uid' queue' online' handed'].
  simpl. intros <- <- <- <-.
  destruct a as [thr env ty act lbl el meta | thr | thr | |]; simpl;
    unfold trackEvent, on_online, flushEventQueue, queue_full, eventData; simpl;
    repeat case_match; done.
Qed.

(** X18.  [setUserId] has no effect on the events: a sequence of actions
    and the same sequence without its [setUserId] calls leave the same
    session id, queue, connectivity and batches. *)
Theorem user_id_leaves_events_alone actions self :
  sessionId (run actions self) = sessionId (run (without_user actions) self)
  /\ eventQueue (run actions self) = eventQueue (run (without_user actions) self)
  /\ isOnline (run actions self) = isOnline (run (without_user actions) self)
  /\ batches (run actions self) = batches (run (without_user actions) self).
Proof.
  assert (forall self self',
            sessionId self = sessionId self' -> eventQueue self = eventQueue self' ->
            isOnline self = isOnline self' -> batches self = batches self' ->
            sessionId (run actions self) = sessionId (run (without_user actions) self')
            /\ eventQueue (run actions self) = eventQueue (run (without_user actions) self')
            /\ isOnline (run actions self) = isOnline (run (without_user actions) self')
            /\ batches (run actions self) = batches (run (without_user actions) self'))
    as Hsim; [| by apply Hsim].
  induction actions as [| a actions IH]; intros s s' Hs Hq Ho Hb; [done |].
  change (run (a :: actions) s) with (run actions (step a s)).
  unfold without_user. destruct (is_set_user a) eqn:Ha.
  - rewrite filter_cons_False by (rewrite Ha; done).
    destruct a; try done. by apply IH.
  - rewrite filter_cons_True by done.
    change (run (a :: filter _ actions) s') with (run (without_user actions) (step a s')).
    destruct (step_same_but_user a s s') as (? & ? & ? & ?); try done. by apply IH.
Qed.

Section WithNumberFormat.

Variable number_to_string : Z -> string.

Lemma on_scroll_cases thr env scrollPercent maxScrollDepth self :
  (on_scroll number_to_string thr env scrollPercent (maxScrollDepth, self)
     = (maxScrollDepth, self))
  \/ (exists z, scrollPercent = Finite z /\ maxScrollDepth < z /\ Z.rem z 25 = 0
       /\ on_scroll number_to_string thr env scrollPercent (maxScrollDepth, self)
            = (z, trackScrollDepth number_to_string thr env z self)).
Proof.
  destruct scrollPercent as [z |]; [| by left]. simpl.
  destruct (Z.gtb_spec z maxScrollDepth) as [Hgt | Hle]; [| by left].
  destruct (Z.eqb_spec (Z.rem z 25) 0) as [Hrem | Hrem]; [| by left].
  right. by exists z.
Qed.

Lemma scroll_depths_track thr env z self :
  scroll_depths (all_events (trackScrollDepth number_to_string thr env z self))
    = scroll_depths (all_events self) ++ [z].
Proof.
  unfold trackScrollDepth. rewrite all_events_track, scroll_depths_app. f_equal.
Qed.

(** X19.  The scroll listener of [setupAutoTracking]: over any sequence of
    scroll events the depths it records are added in order to those
    recorded before; they are multiples of 25, each above the one before
    and the first above the starting maximum, with no upper limit; and the
    maximum it ends with is the last depth recorded, or the starting one. *)
Theorem scroll_depths_increase events maxScrollDepth self :
  exists depths,
    scroll_depths (all_events
                     (scroll_all number_to_string events (maxScrollDepth, self)).2)
      = scroll_depths (all_events self) ++ depths
    /\ StronglySorted Z.lt (maxScrollDepth :: depths)
    /\ Forall (fun depth => Z.rem depth 25 = 0) depths
    /\ (scroll_all number_to_string events (maxScrollDepth, self)).1
         = default maxScrollDepth (last depths).
Proof.
  revert maxScrollDepth self.
  induction events as [| [[thr env] scrollPercent] events IH]; intros maxScrollDepth self.
  - exists []. simpl. rewrite app_nil_r. split_and!; try done. repeat constructor.
  - change (scroll_all number_to_string ((thr, env, scrollPercent) :: events)
              (maxScrollDepth, self))
      with (scroll_all number_to_string events
              (on_scroll number_to_string thr env scrollPercent (maxScrollDepth, self))).
    destruct (on_scroll_cases thr env scrollPercent maxScrollDepth self)
      as [-> | (z & -> & Hgt & Hrem & ->)]; [apply IH |].
    destruct (IH z (trackScrollDepth number_to_string thr env z self))
      as (depths & Hdepths & Hsorted & Hrems & Hlast).
    exists (z :: depths). split_and!.
    + by rewrite Hdepths, scroll_depths_track, <- app_assoc.
    + constructor; [done |]. constructor; [done |].
      apply StronglySorted_inv in Hsorted as [_ Hall].
      eapply Forall_impl; [exact Hall |]. simpl. lia.
    + by constructor.
    + rewrite Hlast, last_cons. by destruct (last depths).
Qed.

End WithNumberFormat.

End TrackingFacts.

(** ** The client and its breaker *)

Module ClientBreaker.

Import CircuitBreaker LLMClient BreakerFacts ClientFacts.

Lemma run_ops_app ops ops' cb : run_ops (ops ++ ops') cb = run_ops ops' (run_ops ops cb).
Proof. unfold run_ops. apply fold_left_app. Qed.

Lemma run_op_keeps_config o cb :
  failure_threshold (run_op o cb) = failure_threshold cb
  /\ recovery_timeout (run_op o cb) = recovery_timeout cb.
Proof.
  destruct o as [now | | now]; simpl; try done.
  by destruct (is_open_keeps_config now cb) as (-> & -> & _).
Qed.

Lemma run_ops_keeps_config ops cb :
  failure_threshold (run_ops ops cb) = failure_threshold cb
  /\ recovery_timeout (run_ops ops cb) = recovery_timeout cb.
Proof.
  revert cb. induction ops as [| o ops IH]; intros cb; [done |].
  change (run_ops (o :: ops) cb) with (run_ops ops (run_op o cb)).
  destruct (IH (run_op o cb)) as [-> ->]. apply run_op_keeps_config.
Qed.

Lemma run_ops_reachable ops cb : reachable cb -> reachable (run_ops ops cb).
Proof.
  revert cb. induction ops as [| o ops IH]; intros cb Hcb; [done |].
  apply IH. by constructor.
Qed.

Lemma retry_loop_ops net self prompt config remaining attempt st :
  exists ops,
    breaker (snd (retry_loop net self prompt config remaining attempt st))
      = run_ops ops (breaker st).
Proof.
  revert attempt st. induction remaining as [| remaining IH]; intros attempt st;
    [by exists [] |].
  rewrite retry_loop_S.
  destruct (attempt_body_cases net self prompt config attempt st)
    as [Hio | Hio | cb text secs Hio Hnet | cb e secs Hio Hnet Hc
        | cb e secs Hio Hnet Hc Hne | cb e secs r Hio Hnet Hc Heq Hr];
    try (assert (cb = run_op (IsOpen (clock st)) (breaker st)) as Hcb
           by (simpl; by rewrite Hio)).
  - by exists [].
  - by exists [].
  - exists [IsOpen (clock st); RecordSuccess]. simpl. by rewrite Hcb.
  - exists [IsOpen (clock st)]. simpl. by rewrite Hcb.
  - destruct (IH (attempt + 1)
                (mkSt (clock st + secs + 2 ^ attempt)
                   (trace st ++ [NetCall prompt config; Sleep (2 ^ attempt)])
                   (record_failure (clock st + secs) cb))) as [ops Hops].
    exists ([IsOpen (clock st); RecordFailure (clock st + secs)] ++ ops).
    rewrite Hops, run_ops_app. simpl. by rewrite Hcb.
  - exists [IsOpen (clock st); RecordFailure (clock st + secs)].
    destruct (reply r); simpl; by rewrite Hcb.
Qed.

(** X20.  [call_with_retry] changes the client's breaker only by calls of
    [is_open], [record_success] and [record_failure]: the breaker after a
    run is the one before with some sequence of these applied, its
    threshold and recovery time are unchanged, and a breaker that was
    produced by the three methods from a fresh one still is, so that it is
    OPEN or HALF_OPEN only with its counter at or above the threshold. *)
Theorem client_drives_breaker_by_its_methods (net : Network) (self : LLMClient.t)
    (prompt : string) (config : Config) (st : St) :
  let after := breaker (snd (call_with_retry net self prompt config st)) in
  (exists ops, after = run_ops ops (breaker st))
  /\ failure_threshold after = failure_threshold (breaker st)
  /\ recovery_timeout after = recovery_timeout (breaker st)
  /\ (reachable (breaker st) -> reachable after /\ tripped_means_counted after).
Proof.
  intros after.
  destruct (retry_loop_ops net self prompt config
              (Z.to_nat (retry_attempts self)) 0 st) as [ops Hops].
  fold (call_with_retry net self prompt config) in Hops. fold after in Hops.
  rewrite Hops. split_and!.
  - by exists ops.
  - apply run_ops_keeps_config.
  - apply run_ops_keeps_config.
  - intros Hreach. apply (run_ops_reachable ops) in Hreach.
    split; [done |]. by apply reachable_tripped_means_counted.
Qed.

(** Three timeouts against a fresh client: the breaker counts them and is
    still one that the three methods can produce. *)
Lemma client_drives_breaker_by_its_methods_witness :
  let after := breaker (snd (call_with_retry Scenarios.net_down LLMClient.init_default
                               Scenarios.cv_prompt Scenarios.cv_config
                               (initial_state 0))) in
  reachable after /\ tripped_means_counted after.
Proof.
  apply (client_drives_breaker_by_its_methods Scenarios.net_down LLMClient.init_default
           Scenarios.cv_prompt Scenarios.cv_config (initial_state 0)).
  apply reach_init.
Defined.

End ClientBreaker.

(** ** Properties of URL validation *)

Module UrlFacts.

Import InputSanitizer.

Section WithUrllib.

Variable hostname : list N -> Outcome (option (list N)).
Variable str_lower : list N -> list N.

(** X21.  [validate_url], given that [lower] leaves the names [localhost]
    and [127.0.0.1] as they are: a URL is accepted exactly when it starts
    with [http://] or [https://] and the lower-cased host name ends with
    one of the five allowed domains.  The test for [localhost] and
    [127.0.0.1] decides nothing, and the end of the name is compared
    without a dot before it. *)
Theorem allowed_suffix_decides url :
  str_lower (codepoints "localhost") = codepoints "localhost" ->
  str_lower (codepoints "127.0.0.1") = codepoints "127.0.0.1" ->
  validate_url hostname str_lower url = true
  <-> (codepoints "http://" `prefix_of` url \/ codepoints "https://" `prefix_of` url)
      /\ exists name allowed,
           hostname url = Returned (Some name)
           /\ allowed ∈ allowed_domains
           /\ allowed `suffix_of` str_lower name.
Proof.
  intros Hlocal Hloop. unfold validate_url.
  assert (existsb (startswith url) [codepoints "http://"; codepoints "https://"] = true
          <-> codepoints "http://" `prefix_of` url \/ codepoints "https://" `prefix_of` url)
    as Hscheme.
  { simpl. rewrite orb_false_r, orb_true_iff. unfold startswith.
    by rewrite !bool_decide_eq_true. }
  assert (forall name,
            existsb (fun allowed => endswith (str_lower name) allowed) allowed_domains = true
            <-> exists allowed, allowed ∈ allowed_domains
                                /\ allowed `suffix_of` str_lower name) as Hallowed.
  { intros name. rewrite existsb_exists. unfold endswith.
    split; intros (allowed & Hin & Hsuf); exists allowed.
    - by rewrite list_elem_of_In, <- (bool_decide_eq_true (_ `suffix_of` _)).
    - by rewrite <- list_elem_of_In, bool_decide_eq_true. }
  split.
  - destruct (existsb (startswith url) _) eqn:Hs; simpl; [| done].
    intros Hv. split; [by apply Hscheme |].
    destruct (hostname url) as [[name |] | e]; [| by case_bool_decide | done].
    case_bool_decide; [done |]. apply Hallowed in Hv as (allowed & ? & ?).
    by exists name, allowed.
  - intros (Hs%Hscheme & name & allowed & -> & Hin & Hsuf). rewrite Hs. simpl.
    assert (existsb (fun allowed => endswith (str_lower name) allowed) allowed_domains
            = true) as Hok by (apply Hallowed; by exists allowed).
    case_bool_decide as Hblocked; [| done].
    exfalso. apply elem_of_cons in Hblocked as [[= ->] | Hblocked].
    { rewrite Hlocal in Hok. by vm_compute in Hok. }
    apply elem_of_cons in Hblocked as [[= ->] | Hblocked]; [| by apply elem_of_nil in Hblocked].
    rewrite Hloop in Hok. by vm_compute in Hok.
Qed.

End WithUrllib.

(** A look-alike of an allowed domain, with a host-name function that finds
    the same host in every URL. *)
Lemma allowed_suffix_decides_witness :
  validate_url (fun _ => Returned (Some (codepoints "notlinkedin.com"))) (fun s => s)
    (codepoints "https://notlinkedin.com/jobs") = true.
Proof.
  apply allowed_suffix_decides; [reflexivity | reflexivity |].
  split; [right; apply (bool_decide_unpack _); by vm_compute |].
  exists (codepoints "notlinkedin.com"), (codepoints "linkedin.com").
  split_and!; [reflexivity | |]; apply (bool_decide_unpack _); by vm_compute.
Defined.

End UrlFacts.
